(** * aws-saas-prefixes: a shallow embedding of [app.py]

    The tool downloads the AWS ip-ranges feed, groups it per CIDR prefix,
    filters it by the operator's include / exclude / region options and
    either uploads annotation rows or creates a three-tier scope tree.

    The embedding keeps what the Python code relies on:
    - list objects live in a store and are passed by reference, so that
      the in-place [services.remove('AMAZON')] of [filter_amazon] is seen
      through every tuple that shares the list;
    - a function that falls off its end returns [None];
    - a raised exception ends the run and keeps the effects made so far. *)

From stdpp Require Import gmap strings list fin_maps pretty.

(** ** Python values and outcomes *)

(** What the filter predicates can return: [True], [False], or [None]
    when the body ends without a [return]. *)
Inductive pyval : Type := PyTrue | PyFalse | PyNone.

(** Truth value of a result in an [if] condition. *)
Definition truthy (v : pyval) : bool :=
  match v with PyTrue => true | PyFalse | PyNone => false end.

Inductive exn : Type :=
| KeyError      (* d[k] with k absent *)
| IndexError    (* l[0] on an empty list *)
| ValueError    (* l.remove(x) with x absent; resp.json() on a non-JSON body *)
| BadReference. (* a location outside the store; no Python run reaches it *)

(** Outcome of a computation over a state of type [S]: a value and the new
    state, or an exception together with the state reached when it was
    raised. *)
Inductive outcome (S A : Type) : Type :=
| Ok (a : A) (s : S)
| Raised (e : exn) (s : S).
Arguments Ok {S A} a s.
Arguments Raised {S A} e s.

Definition py (S A : Type) : Type := S → outcome S A.

Definition ret {S A} (a : A) : py S A := λ s, Ok a s.
Definition raise {S A} (e : exn) : py S A := λ s, Raised e s.
Definition bind {S A B} (m : py S A) (k : A → py S B) : py S B :=
  λ s, match m s with
       | Ok a s' => k a s'
       | Raised e s' => Raised e s'
       end.

#[global] Instance py_ret {S} : MRet (py S) := @ret S.
#[global] Instance py_bind {S} : MBind (py S) := λ A B k m, bind m k.

Definition final_state {S A} (o : outcome S A) : S :=
  match o with Ok _ s => s | Raised _ s => s end.

(** ** The store of list objects *)

(** A location is an index into the store; a fresh list is put at the end. *)
Abbreviation loc := nat (only parsing).
Abbreviation store := (list (list string)) (only parsing).

(** [[]]: a new empty list object. *)
Definition new_list : py store loc :=
  λ h, Ok (length h) (h ++ [[]]).

Definition deref (l : loc) : py store (list string) :=
  λ h, match h !! l with
       | Some xs => Ok xs h
       | None => Raised BadReference h
       end.

Definition assign (l : loc) (xs : list string) : py store unit :=
  λ h, match h !! l with
       | Some _ => Ok tt (<[l := xs]> h)
       | None => Raised BadReference h
       end.

(** [l.append(x)] *)
Definition append (l : loc) (x : string) : py store unit :=
  xs ← deref l; assign l (xs ++ [x]).

(** [x in l] on a list *)
Definition py_in (x : string) (xs : list string) : bool :=
  bool_decide (x ∈ xs).

(** The list without the first element equal to [x]; [None] when there is
    none (Python raises [ValueError] there). *)
Fixpoint remove_first (x : string) (xs : list string) : option (list string) :=
  match xs with
  | [] => None
  | y :: ys => if decide (x = y) then Some ys
               else cons y <$> remove_first x ys
  end.

(** [l.remove(x)] *)
Definition py_remove (l : loc) (x : string) : py store unit :=
  xs ← deref l;
  match remove_first x xs with
  | Some ys => assign l ys
  | None => raise ValueError
  end.

(** [l[0]] *)
Definition index0 (l : loc) : py store string :=
  xs ← deref l;
  match xs with
  | x :: _ => ret x
  | [] => raise IndexError
  end.

(** ** [filter_amazon] (app.py, lines 85-89) *)

Definition filter_amazon (services : loc) : py store loc :=
  xs ← deref services;
  if bool_decide (1 < length xs) && py_in "AMAZON" xs then
    py_remove services "AMAZON";;
    ret services
  else ret services.

(** ** [merge_prefixes] (app.py, lines 92-124) *)

(** One entry of [payload['prefixes']] that carries the three keys the code
    reads; a feed is a list of such complete entries. *)
Record prefix : Type := mkPrefix {
  ip_prefix : string;
  region : string;
  service : string
}.

(** The three statements
    [_xs = d.setdefault(k, []); _xs.append(x); d[k] = _xs],
    which the first loop runs once on [regions] and once on [services].
    When the key is present, the empty list that Python builds for the
    default is dropped at once and no name ever refers to it: it is not
    put in the store. *)
Definition setdefault_append (d : gmap string loc) (k x : string)
  : py store (gmap string loc) :=
  _xs ← match d !! k with
         | Some l => ret l
         | None => new_list
         end;
  append _xs x;;
  ret (<[k := _xs]> d).

(** First loop: fill the two dictionaries. *)
Fixpoint accumulate (prefixes : list prefix) (regions services : gmap string loc)
  : py store (gmap string loc * gmap string loc) :=
  match prefixes with
  | [] => ret (regions, services)
  | p :: rest =>
      regions' ← setdefault_append regions (ip_prefix p) (region p);
      services' ← setdefault_append services (ip_prefix p) (service p);
      accumulate rest regions' services'
  end.

Definition subscript (d : gmap string loc) (k : string) : py store loc :=
  match d !! k with
  | Some l => ret l
  | None => raise KeyError
  end.

(** Second loop: one tuple per entry of the feed, holding the two list
    objects of its prefix. *)
Fixpoint emit (prefixes : list prefix) (regions services : gmap string loc)
  (merged : list (string * loc * loc)) : py store (list (string * loc * loc)) :=
  match prefixes with
  | [] => ret merged
  | p :: rest =>
      r ← subscript regions (ip_prefix p);
      s ← subscript services (ip_prefix p);
      emit rest regions services (merged ++ [(ip_prefix p, r, s)])
  end.

Definition merge_prefixes (payload : list prefix)
  : py store (list (string * loc * loc)) :=
  d ← accumulate payload ∅ ∅;
  emit payload d.1 d.2 [].

(** ** The filters and the projector of [annotations] (lines 148-184) *)

Record policy : Type := mkPolicy {
  includes : list string;
  excludes : list string;
  regions : list string
}.

Definition no_policy : policy := mkPolicy [] [] [].

(** [for x in xs: if x in ys: return v]; [None] when the loop ends without
    returning. *)
Fixpoint return_if_any_in (v : pyval) (xs ys : list string) : option pyval :=
  match xs with
  | [] => None
  | x :: rest => if py_in x ys then Some v else return_if_any_in v rest ys
  end.

Definition valid_region (pol : policy) (_regions : list string) : pyval :=
  match regions pol with
  | [] => PyTrue
  | _ => match return_if_any_in PyTrue (regions pol) _regions with
         | Some v => v
         | None => PyNone
         end
  end.

Definition valid_service (pol : policy) (_services : list string) : pyval :=
  match return_if_any_in PyFalse (excludes pol) _services with
  | Some v => v
  | None =>
      match includes pol with
      | [] => PyTrue
      | _ => match return_if_any_in PyTrue (includes pol) _services with
             | Some v => v
             | None => PyNone
             end
      end
  end.

(** An annotation row: [(ip_prefix, 'AWS', _regions[0], _services[0])]. *)
Definition row : Type := string * string * string * string.

(** The loop over the merged tuples; [filtered] is the list built so far. *)
Fixpoint project (pol : policy) (merged : list (string * loc * loc))
  (filtered : list row) : py store (list row) :=
  match merged with
  | [] => ret filtered
  | (ip, _regions, _services) :: rest =>
      rs ← deref _regions;
      if truthy (valid_region pol rs) then
        ss ← deref _services;
        if truthy (valid_service pol ss) then
          _services' ← filter_amazon _services;
          r0 ← index0 _regions;
          s0 ← index0 _services';
          project pol rest (filtered ++ [(ip, "AWS", r0, s0)])
        else project pol rest filtered
      else project pol rest filtered
  end.

(** The rows that [annotations] hands to [annotate]. *)
Definition annotations (pol : policy) (payload : list prefix)
  : py store (list row) :=
  merged ← merge_prefixes payload;
  project pol merged [].

(** The feed of the end-to-end scenarios: one prefix published twice, as
    AMAZON and as S3. *)
Definition feed1 : list prefix :=
  [ mkPrefix "3.5.0.0/16" "us-east-1" "AMAZON";
    mkPrefix "3.5.0.0/16" "us-east-1" "S3" ].

(** ** [create_scopes] (app.py, lines 207-319) *)

(** [extract_regions_and_services]: the services seen under each region. *)
Definition extract_regions_and_services (payload : list prefix)
  : gmap string (gset string) :=
  foldl (λ regions p,
           <[region p := default ∅ (regions !! region p) ∪ {[service p]}]> regions)
        ∅ payload.

(** Python leaves open in which order a dictionary yields its items and a
    set its elements: [items] is one order in which [index] can be walked. *)
Definition iterates (index : gmap string (gset string))
  (items : list (string * list string)) : Prop :=
  ∃ walk, walk ≡ₚ map_to_list index
          ∧ Forall2 (λ kv item, item.1 = kv.1 ∧ item.2 ≡ₚ elements kv.2)
                    walk items.

Module CreateScopes.

(** The JSON body of a scope-creation request. *)
Record request : Type := mkRequest {
  short_name : string;
  query_type : string;
  query_field : string;
  query_value : string;
  parent_app_scope_id : string
}.

(** What the platform answers: the status class, and the body as
    [resp.json()] reads it ([None] when it is not JSON). *)
Record response : Type := mkResponse {
  ok : bool;
  json : option (gmap string string)
}.

(** What a run does to the outside: lines printed and requests posted. *)
Inductive event : Type :=
| Print (line : string)
| Post (path : string) (body : request).

Definition posted (tr : list event) : list request :=
  omap (λ ev, match ev with Post _ body => Some body | Print _ => None end) tr.

(** [resp.json()["id"]] as a value: the id, or the exception it raises. *)
Definition id_of (resp : response) : exn + string :=
  match json resp with
  | None => inl ValueError
  | Some d => match d !! "id" with
              | Some i => inr i
              | None => inl KeyError
              end
  end.

Definition json_id (resp : response) : py (list event) string :=
  match id_of resp with
  | inr i => ret i
  | inl e => raise e
  end.

(** [for x in xs: if x == y: return v] *)
Fixpoint return_if_any_eq (v : pyval) (xs : list string) (y : string)
  : option pyval :=
  match xs with
  | [] => None
  | x :: rest => if bool_decide (x = y) then Some v
                 else return_if_any_eq v rest y
  end.

Definition valid_region (pol : policy) (_region : string) : pyval :=
  match regions pol with
  | [] => PyTrue
  | _ => match return_if_any_eq PyTrue (regions pol) _region with
         | Some v => v
         | None => PyNone
         end
  end.

Definition valid_service (pol : policy) (_service : string) : pyval :=
  match return_if_any_eq PyFalse (excludes pol) _service with
  | Some v => v
  | None =>
      match includes pol with
      | [] => PyTrue
      | _ => match return_if_any_eq PyTrue (includes pol) _service with
             | Some v => v
             | None => PyNone
             end
      end
  end.

Definition print (line : string) : py (list event) unit :=
  λ tr, Ok tt (tr ++ [Print line]).

Section Platform.

(** The platform: its answer to a request, given the requests it has
    received before. *)
Variable api : list request → request → response.

Definition post (path : string) (body : request) : py (list event) response :=
  λ tr, Ok (api (posted tr) body) (tr ++ [Post path body]).

Definition create_service_scope (root_scope_id : string)
  : py (list event) string :=
  resp ← post "/app_scopes"
              (mkRequest "AWS" "eq" "user_SaaS Provider" "AWS" root_scope_id);
  json_id resp.

Definition create_region_scope (service_scope_id region : string)
  : py (list event) string :=
  resp ← post "/app_scopes"
              (mkRequest region "eq" "user_SaaS Region" region service_scope_id);
  json_id resp.

Definition create_component_scope (region_scope_id service : string)
  : py (list event) unit :=
  post "/app_scopes"
       (mkRequest service "eq" "user_SaaS Component" service region_scope_id);;
  mret tt.

(** [for service in services: ...] *)
Fixpoint services_loop (pol : policy) (region_scope_id : string)
  (services : list string) : py (list event) unit :=
  match services with
  | [] => mret tt
  | service :: rest =>
      (if truthy (valid_service pol service) then
         print (" " +:+ service);;
         create_component_scope region_scope_id service
       else mret tt);;
      services_loop pol region_scope_id rest
  end.

(** [for region, services in regions_and_services.items(): ...] *)
Fixpoint regions_loop (pol : policy) (service_scope_id : string)
  (items : list (string * list string)) : py (list event) unit :=
  match items with
  | [] => mret tt
  | (region, services) :: rest =>
      (if truthy (valid_region pol region) then
         print region;;
         region_scope_id ← create_region_scope service_scope_id region;
         services_loop pol region_scope_id services
       else mret tt);;
      regions_loop pol service_scope_id rest
  end.

(** The body of [create_scopes] after the feed is fetched; [items] is the
    order in which [regions_and_services.items()] and the sets yield their
    content, that is [iterates (extract_regions_and_services payload) items]. *)
Definition create_scopes (pol : policy) (root_scope_id : string)
  (items : list (string * list string)) : py (list event) unit :=
  service_scope_id ← create_service_scope root_scope_id;
  regions_loop pol service_scope_id items.

End Platform.

End CreateScopes.

(** ** Notions used to state the properties *)

(** The entries of the feed for prefix [k], in feed order. *)
Definition records_of (k : string) (payload : list prefix) : list prefix :=
  filter (λ p, ip_prefix p = k) payload.

(** What one dictionary of the first loop holds after the entries [done]:
    the list object of a key carries field [f] of the entries of that key,
    every prefix seen has its list, and no two keys share a list. *)
Definition dict_ok (f : prefix → string) (done : list prefix)
  (d : gmap string loc) (h : store) : Prop :=
  (∀ k l, d !! k = Some l → h !! l = Some (f <$> records_of k done)) ∧
  (∀ p, p ∈ done → is_Some (d !! ip_prefix p)) ∧
  (∀ k k' l, d !! k = Some l → d !! k' = Some l → k = k').

(** The two dictionaries never hold the same list object. *)
Definition separate (d1 d2 : gmap string loc) : Prop :=
  ∀ k k' l, d1 !! k = Some l → d2 !! k' = Some l → False.

(** The tuple that the second loop builds for one entry of the feed. *)
Definition tuple_of (rd sd : gmap string loc) (p : prefix)
  (t : string * loc * loc) : Prop :=
  ∃ lr ls, t = (ip_prefix p, lr, ls)
           ∧ rd !! ip_prefix p = Some lr ∧ sd !! ip_prefix p = Some ls.

(** The content of the services list after [filter_amazon]. *)
Definition without_amazon (xs : list string) : list string :=
  if bool_decide (1 < length xs) && py_in "AMAZON" xs
  then default xs (remove_first "AMAZON" xs)
  else xs.

(** The specification's reading of the pipeline, for comparison: every
    tuple owns a copy of the complete lists of its prefix, so that a removal
    made for one tuple is not seen by the next. *)
Definition merge_prefixes_by_value (payload : list prefix)
  : list (string * list string * list string) :=
  (λ p, (ip_prefix p,
         region <$> records_of (ip_prefix p) payload,
         service <$> records_of (ip_prefix p) payload)) <$> payload.

Definition project_by_value (pol : policy)
  (merged : list (string * list string * list string)) : list row :=
  omap (λ '(ip, rs, ss),
          if truthy (valid_region pol rs) && truthy (valid_service pol ss)
          then r0 ← head rs; s0 ← head (without_amazon ss);
               Some (ip, "AWS", r0, s0)
          else None) merged.

Definition annotations_by_value (pol : policy) (payload : list prefix)
  : list row :=
  project_by_value pol (merge_prefixes_by_value payload).

(** The requests that a run with policy [pol] over [items] may post. *)
Definition allowed_request (pol : policy) (items : list (string * list string))
  (req : CreateScopes.request) : Prop :=
  let name := CreateScopes.short_name req in
  let field := CreateScopes.query_field req in
  (field = "user_SaaS Provider" ∧ name = "AWS")
  ∨ (field = "user_SaaS Region"
     ∧ truthy (CreateScopes.valid_region pol name) = true
     ∧ ∃ services, (name, services) ∈ items)
  ∨ (field = "user_SaaS Component"
     ∧ truthy (CreateScopes.valid_service pol name) = true
     ∧ ∃ region services,
         (region, services) ∈ items
         ∧ truthy (CreateScopes.valid_region pol region) = true
         ∧ name ∈ services).

(** What the inner loop of [create_scopes] prints and posts. *)
Definition services_events (pol : policy) (region_scope_id : string)
  (services : list string) : list CreateScopes.event :=
  service ← services;
  if truthy (CreateScopes.valid_service pol service) then
    [CreateScopes.Print (" " +:+ service);
     CreateScopes.Post "/app_scopes"
       (CreateScopes.mkRequest service "eq" "user_SaaS Component" service
          region_scope_id)]
  else [].





(** A platform that creates every scope. *)
Definition api_ok (hist : list CreateScopes.request) (req : CreateScopes.request)
  : CreateScopes.response :=
  CreateScopes.mkResponse true
    (Some {["id" := "id-" +:+ CreateScopes.short_name req]}).



(** ** Notions used to state the further properties *)

(** The regions and the services that the feed lists for prefix [k], in
    feed order. *)
Definition regions_of (payload : list prefix) (k : string) : list string :=
  region <$> records_of k payload.

Definition services_of (payload : list prefix) (k : string) : list string :=
  service <$> records_of k payload.

(** Entry [p] of the feed passes the two filters on the complete lists of
    its prefix. *)
Definition passes (pol : policy) (payload : list prefix) (p : prefix) : bool :=
  truthy (valid_region pol (regions_of payload (ip_prefix p)))
  && truthy (valid_service pol (services_of payload (ip_prefix p))).

(** [r] is a row that [annotations] may build for entry [p]. *)
Definition row_of (pol : policy) (payload : list prefix) (p : prefix) (r : row)
  : Prop :=
  ∃ r0 s0,
    r = (ip_prefix p, "AWS", r0, s0)
    ∧ head (regions_of payload (ip_prefix p)) = Some r0
    ∧ s0 ∈ services_of payload (ip_prefix p)
    ∧ passes pol payload p = true.

(** The rows built for a run of entries: an entry gives one row or none, in
    order; it gives none only when it fails a filter on its complete lists,
    or when "AMAZON" is one of the included services. *)
Inductive rows_match (pol : policy) (payload : list prefix)
  : list prefix → list row → Prop :=
| rows_nil : rows_match pol payload [] []
| rows_skip p ps rows :
    passes pol payload p = false ∨ "AMAZON" ∈ includes pol →
    rows_match pol payload ps rows →
    rows_match pol payload (p :: ps) rows
| rows_keep p ps r rows :
    row_of pol payload p r →
    rows_match pol payload ps rows →
    rows_match pol payload (p :: ps) (r :: rows).

(** How the services list [ss] of a prefix stands to the list [S] that
    [merge_prefixes] built for it, at any point of the loop of
    [annotations]. *)
Definition services_inv (pol : policy) (S ss : list string) : Prop :=
  (S ≠ [] → ss ≠ [])
  ∧ ss `sublist_of` S
  ∧ filter (λ x, x ≠ "AMAZON") ss = filter (λ x, x ≠ "AMAZON") S
  ∧ (∀ x, x ∈ excludes pol → x ∈ S → x ∈ ss).

(** The store at any point of the loop of [annotations]. *)
Definition project_inv (pol : policy) (payload : list prefix)
  (rd sd : gmap string loc) (h : store) : Prop :=
  (∀ k l, rd !! k = Some l → h !! l = Some (regions_of payload k))
  ∧ (∀ k l, sd !! k = Some l →
       ∃ ss, h !! l = Some ss ∧ services_inv pol (services_of payload k) ss)
  ∧ (∀ k k' l, sd !! k = Some l → sd !! k' = Some l → k = k')
  ∧ separate rd sd.

(** The fields of a row. *)
Definition row_ip (r : row) : string := r.1.1.1.
Definition row_provider (r : row) : string := r.1.1.2.
Definition row_region (r : row) : string := r.1.2.
Definition row_component (r : row) : string := r.2.

(** The tiers of the scope tree, read off the query field of a request. *)
Definition is_region_request (req : CreateScopes.request) : Prop :=
  CreateScopes.query_field req = "user_SaaS Region".

Definition is_component_request (req : CreateScopes.request) : Prop :=
  CreateScopes.query_field req = "user_SaaS Component".

(** The number of region and component names of an index as it is walked. *)
Definition names_count (items : list (string * list string)) : nat :=
  sum_list ((λ item, S (length item.2)) <$> items).

(** A request of the region or component tier, as [create_region_scope] and
    [create_component_scope] build it: posted to [/app_scopes], with an
    equality query on the name of the scope; a region scope hangs under
    [ssid]. *)
Definition lower_tier_event (ssid : string) (ev : CreateScopes.event) : Prop :=
  match ev with
  | CreateScopes.Print _ => True
  | CreateScopes.Post path req =>
      path = "/app_scopes"
      ∧ CreateScopes.query_type req = "eq"
      ∧ CreateScopes.query_value req = CreateScopes.short_name req
      ∧ ((is_region_request req ∧ CreateScopes.parent_app_scope_id req = ssid)
         ∨ is_component_request req)
  end.

(** The component request at position [j] of trace [tr] hangs under the
    scope of its own region: the nearest region request before it, at some
    position [i], is for a region under which the index lists the service,
    and the parent of the component request is the id with which the
    platform answered that region request. *)
Definition component_parent_at
  (api : list CreateScopes.request → CreateScopes.request → CreateScopes.response)
  (items : list (string * list string))
  (tr : list CreateScopes.event) (j : nat) : Prop :=
  ∀ path req,
    tr !! j = Some (CreateScopes.Post path req) →
    is_component_request req →
    ∃ i preq services,
      i < j
      ∧ tr !! i = Some (CreateScopes.Post "/app_scopes" preq)
      ∧ is_region_request preq
      ∧ CreateScopes.id_of (api (CreateScopes.posted (take i tr)) preq)
        = inr (CreateScopes.parent_app_scope_id req)
      ∧ (CreateScopes.short_name preq, services) ∈ items
      ∧ CreateScopes.short_name req ∈ services
      ∧ ∀ m path' req',
          i < m < j →
          tr !! m = Some (CreateScopes.Post path' req') →
          is_component_request req'.

(** ** The options of [app] and the command [annotations] (lines 61-82,
    135-155, 186-204) *)

(** The value of a repeatable option: a tuple of names, or [None]. *)
Abbreviation names := (option (list string)) (only parsing).

Module Cli.

(** [ctx.obj] as [app] fills it, for the three entries that the filters
    read; the entry "api" holds the client, which no filter reads. *)
Definition app (include exclude region : names) : gmap string names :=
  <["regions" := region]> (<["excludes" := exclude]> (<["includes" := include]> ∅)).

(** [d.get(k, default)] *)
Definition dict_get (d : gmap string names) (k : string) (default : names)
  : names :=
  match d !! k with
  | Some v => v
  | None => default
  end.

(** [if not v: v = []] *)
Definition or_empty (v : names) : list string :=
  match v with
  | Some (x :: xs) => x :: xs
  | Some [] | None => []
  end.

(** The first lines of both commands: the three options are read from
    [ctx.obj] with the keyword arguments of the command as defaults; the
    default given for "excludes" is [regions], as the source has it. *)
Definition command_policy (obj : gmap string names)
  (includes excludes regions : names) : policy :=
  let includes := dict_get obj "includes" includes in
  let excludes := dict_get obj "excludes" regions in
  let regions := dict_get obj "regions" regions in
  mkPolicy (or_empty includes) (or_empty excludes) (or_empty regions).

End Cli.

(** What the client answers to an upload. *)
Record upload_response : Type := mkUploadResponse {
  upload_ok : bool;
  upload_text : string
}.

(** What [annotate] does to the outside: log records, and the upload of the
    file, given by its lines of fields. *)
Inductive annotate_event : Type :=
| LogInfo (message : string)
| LogError (message : string)
| Upload (lines : list (list string)) (path : string)
         (options : list (string * string)).

Definition csv_header : list string :=
  ["IP"; "SaaS Provider"; "SaaS Region"; "SaaS Component"].

(** [wr.writerow(pfx)] on a row. *)
Definition row_fields (r : row) : list string :=
  [row_ip r; row_provider r; row_region r; row_component r].

(** [annotate]: the header and the rows are written to a temporary file,
    which is uploaded once; the outcome of the upload is logged. *)
Definition annotate
  (upload : list (list string) → string → list (string * string)
            → upload_response)
  (vrf : string) (prefixes : list row) : list annotate_event :=
  let lines := csv_header :: (row_fields <$> prefixes) in
  let path := "/assets/cmdb/upload/" +:+ vrf in
  let req_payload := [("X-Tetration-Oper", "add")] in
  let resp := upload lines path req_payload in
  [LogInfo ("Writing Annotations (Total: " +:+ pretty (length prefixes) +:+ ") ");
   Upload lines path req_payload;
   if upload_ok resp then LogInfo "Uploaded Annotations"
   else LogError ("Failed to Upload Annotations: " +:+ upload_text resp)].

(** The command [annotations] on a fetched feed. *)
Definition annotations_command
  (upload : list (list string) → string → list (string * string)
            → upload_response)
  (obj : gmap string names) (vrf : string)
  (includes excludes regions : names) (payload : list prefix)
  : py store (list annotate_event) :=
  filtered ← annotations (Cli.command_policy obj includes excludes regions)
               payload;
  mret (annotate upload vrf filtered).

(** A platform whose answers are never JSON. *)
Definition api_not_json (hist : list CreateScopes.request)
  (req : CreateScopes.request) : CreateScopes.response :=
  CreateScopes.mkResponse false None.



(** * Properties *)

(** ** Running the monad *)

Lemma bind_ok {S A B} (m : py S A) (k : A → py S B) s a s' :
  m s = Ok a s' → (m ≫= k) s = k a s'.
Proof. intros H. unfold mbind, py_bind, bind. by rewrite H. Qed.

Lemma bind_raised {S A B} (m : py S A) (k : A → py S B) s e s' :
  m s = Raised e s' → (m ≫= k) s = Raised e s'.
Proof. intros H. unfold mbind, py_bind, bind. by rewrite H. Qed.

Lemma deref_ok (l : loc) (h : store) xs :
  h !! l = Some xs → deref l h = Ok xs h.
Proof. intros H. unfold deref. by rewrite H. Qed.

Lemma assign_ok (l : loc) (h : store) xs ys :
  h !! l = Some xs → assign l ys h = Ok tt (<[l := ys]> h).
Proof. intros H. unfold assign. by rewrite H. Qed.

Lemma append_ok (l : loc) (h : store) xs x :
  h !! l = Some xs → append l x h = Ok tt (<[l := xs ++ [x]]> h).
Proof.
  intros H. unfold append.
  rewrite (bind_ok _ _ _ _ _ (deref_ok _ _ _ H)).
  by apply assign_ok with xs.
Qed.

(** ** The grouping computed by [merge_prefixes] *)

Lemma records_of_snoc_eq k done p :
  ip_prefix p = k → records_of k (done ++ [p]) = records_of k done ++ [p].
Proof.
  intros H. unfold records_of. rewrite filter_app. f_equal.
  rewrite filter_cons_True; [done | exact H].
Qed.

Lemma records_of_snoc_ne k done p :
  ip_prefix p ≠ k → records_of k (done ++ [p]) = records_of k done.
Proof.
  intros H. unfold records_of. rewrite filter_app.
  rewrite filter_cons_False; [| exact H]. by rewrite filter_nil, app_nil_r.
Qed.

Lemma records_of_absent k done :
  (∀ p, p ∈ done → ip_prefix p ≠ k) → records_of k done = [].
Proof.
  intros H. unfold records_of. induction done as [| q done IH]; [done |].
  rewrite filter_cons_False.
  - apply IH. intros p Hp. apply H. by right.
  - apply H. by left.
Qed.

Lemma records_of_present k payload p :
  p ∈ payload → ip_prefix p = k → p ∈ records_of k payload.
Proof. intros Hp Hk. unfold records_of. by apply list_elem_of_filter. Qed.

Lemma separate_sym d1 d2 : separate d1 d2 → separate d2 d1.
Proof. intros H k k' l H1 H2. exact (H k' k l H2 H1). Qed.

Lemma dict_ok_empty f h : dict_ok f [] ∅ h.
Proof.
  repeat split.
  - intros k l H. by rewrite lookup_empty in H.
  - intros p Hp. by apply elem_of_nil in Hp.
  - intros k k' l H. by rewrite lookup_empty in H.
Qed.

Lemma dict_ok_bound f done d h k l :
  dict_ok f done d h → d !! k = Some l → l < length h.
Proof. intros (Hc & _ & _) Hk. eapply lookup_lt_Some. eauto. Qed.

(** One [setdefault; append; store back] on dictionary [d], next to another
    dictionary [d2] that it must leave alone. *)
Lemma setdefault_append_ok f done d f2 done2 d2 h p :
  dict_ok f done d h → dict_ok f2 done2 d2 h → separate d d2 →
  ∃ d' h', setdefault_append d (ip_prefix p) (f p) h = Ok d' h'
           ∧ dict_ok f (done ++ [p]) d' h'
           ∧ dict_ok f2 done2 d2 h'
           ∧ separate d' d2.
Proof.
  intros Hd Hd2 Hsep.
  pose proof Hd as (Hc & Hdom & Hinj).
  pose proof Hd2 as (Hc2 & Hdom2 & Hinj2).
  unfold setdefault_append.
  destruct (d !! ip_prefix p) as [l |] eqn:Hk.
  - (* the prefix has its list already *)
    pose proof (Hc _ _ Hk) as Hl.
    exists (<[ip_prefix p := l]> d), (<[l := (f <$> records_of (ip_prefix p) done) ++ [f p]]> h).
    rewrite (bind_ok _ _ h l h) by done.
    rewrite (bind_ok _ _ _ _ _ (append_ok _ _ _ _ Hl)).
    rewrite (insert_id d) by done.
    split; [done |]. split; [| split].
    + repeat split.
      * intros k l' Hk'. destruct (decide (l' = l)) as [-> |].
        -- assert (k = ip_prefix p) as -> by eauto.
           rewrite list_lookup_insert_eq by (eapply lookup_lt_Some; eauto).
           rewrite records_of_snoc_eq by done.
           by rewrite fmap_app.
        -- rewrite list_lookup_insert_ne by done.
           rewrite records_of_snoc_ne; [eauto |].
           intros <-. congruence.
      * intros q [Hq | Hq%list_elem_of_singleton]%elem_of_app; [eauto |].
        subst q. eauto.
      * done.
    + repeat split; [| done | done].
      intros k l' Hk'. rewrite list_lookup_insert_ne; [eauto |].
      intros <-. eauto.
    + done.
  - (* first entry of the prefix: a new list object *)
    exists (<[ip_prefix p := length h]> d), (h ++ [[f p]]).
    assert (records_of (ip_prefix p) done = []) as Hnone.
    { apply records_of_absent. intros q Hq Heq.
      destruct (Hdom q Hq) as [l Hl]. congruence. }
    assert (new_list h = Ok (length h) (h ++ [[]])) as Hnew by done.
    rewrite (bind_ok _ _ _ _ _ Hnew).
    assert ((h ++ [[]]) !! length h = Some ([] : list string)) as Hfresh.
    { by rewrite lookup_app_r, Nat.sub_diag. }
    rewrite (bind_ok _ _ _ _ _ (append_ok _ _ _ _ Hfresh)).
    assert (<[length h := [] ++ [f p]]> (h ++ [[]]) = h ++ [[f p]]) as ->.
    { rewrite insert_app_r_alt, Nat.sub_diag by done. done. }
    split; [done |]. split; [| split].
    + repeat split.
      * intros k l' Hk'. destruct (decide (ip_prefix p = k)) as [<- | Hne].
        -- rewrite lookup_insert_eq in Hk'. injection Hk' as <-.
           rewrite lookup_app_r, Nat.sub_diag by done.
           rewrite records_of_snoc_eq, Hnone by done. done.
        -- rewrite lookup_insert_ne in Hk' by done.
           rewrite lookup_app_l by exact (dict_ok_bound _ _ _ _ _ _ Hd Hk').
           rewrite records_of_snoc_ne by done. eauto.
      * intros q [Hq | Hq%list_elem_of_singleton]%elem_of_app.
        -- destruct (decide (ip_prefix p = ip_prefix q)) as [-> | Hne].
           ++ rewrite lookup_insert_eq. eauto.
           ++ rewrite lookup_insert_ne by done. eauto.
        -- subst q. rewrite lookup_insert_eq. eauto.
      * intros k k' l' H1 H2.
        destruct (decide (ip_prefix p = k)) as [<- | Hne];
          destruct (decide (ip_prefix p = k')) as [<- | Hne']; [done | | |].
        -- rewrite lookup_insert_eq in H1. injection H1 as <-.
           rewrite lookup_insert_ne in H2 by done.
           pose proof (dict_ok_bound _ _ _ _ _ _ Hd H2). lia.
        -- rewrite lookup_insert_eq in H2. injection H2 as <-.
           rewrite lookup_insert_ne in H1 by done.
           pose proof (dict_ok_bound _ _ _ _ _ _ Hd H1). lia.
        -- rewrite lookup_insert_ne in H1, H2 by done. eauto.
    + repeat split; [| done | done].
      intros k l' Hk'.
      rewrite lookup_app_l by exact (dict_ok_bound _ _ _ _ _ _ Hd2 Hk'). eauto.
    + intros k k' l' H1 H2.
      destruct (decide (ip_prefix p = k)) as [<- | Hne].
      * rewrite lookup_insert_eq in H1. injection H1 as <-.
        pose proof (dict_ok_bound _ _ _ _ _ _ Hd2 H2). lia.
      * rewrite lookup_insert_ne in H1 by done. eauto.
Qed.

(** The first loop, started after the entries [done], ends after
    [done ++ todo]. *)
Lemma accumulate_ok todo : ∀ done rd sd h,
  dict_ok region done rd h → dict_ok service done sd h → separate rd sd →
  ∃ rd' sd' h', accumulate todo rd sd h = Ok (rd', sd') h'
                ∧ dict_ok region (done ++ todo) rd' h'
                ∧ dict_ok service (done ++ todo) sd' h'
                ∧ separate rd' sd'.
Proof.
  induction todo as [| p todo IH]; intros done rd sd h Hr Hs Hsep.
  - exists rd, sd, h. rewrite app_nil_r. done.
  - destruct (setdefault_append_ok region done rd service done sd h p Hr Hs Hsep)
      as (rd1 & h1 & E1 & Hr1 & Hs1 & Hsep1).
    destruct (setdefault_append_ok service done sd region (done ++ [p]) rd1 h1 p
                Hs1 Hr1 (separate_sym _ _ Hsep1))
      as (sd1 & h2 & E2 & Hs2 & Hr2 & Hsep2).
    destruct (IH (done ++ [p]) rd1 sd1 h2 Hr2 Hs2 (separate_sym _ _ Hsep2))
      as (rd' & sd' & h' & E3 & Hr' & Hs' & Hsep').
    exists rd', sd', h'. rewrite <- app_assoc in Hr', Hs'.
    split; [| done]. simpl.
    rewrite (bind_ok _ _ _ _ _ E1), (bind_ok _ _ _ _ _ E2). exact E3.
Qed.

Lemma emit_ok todo : ∀ rd sd merged h,
  (∀ p, p ∈ todo → is_Some (rd !! ip_prefix p)) →
  (∀ p, p ∈ todo → is_Some (sd !! ip_prefix p)) →
  ∃ out, emit todo rd sd merged h = Ok (merged ++ out) h
         ∧ Forall2 (tuple_of rd sd) todo out.
Proof.
  induction todo as [| p todo IH]; intros rd sd merged h Hr Hs.
  - exists []. rewrite app_nil_r. split; [done | constructor].
  - destruct (Hr p) as [lr Hlr]; [by left |].
    destruct (Hs p) as [ls Hls]; [by left |].
    destruct (IH rd sd (merged ++ [(ip_prefix p, lr, ls)]) h) as (out & E & Hout).
    { intros q Hq. apply Hr. by right. }
    { intros q Hq. apply Hs. by right. }
    exists ((ip_prefix p, lr, ls) :: out). split.
    + simpl. unfold subscript. rewrite Hlr, Hls.
      rewrite (bind_ok _ _ h lr h) by done.
      rewrite (bind_ok _ _ h ls h) by done.
      rewrite E. by rewrite <- app_assoc.
    + constructor; [| done]. by exists lr, ls.
Qed.

(** [merge_prefixes] always returns: one tuple per entry of the feed, built
    from two dictionaries that give every prefix its own two list objects. *)
Lemma merge_prefixes_spec payload h0 :
  ∃ rd sd merged h,
    merge_prefixes payload h0 = Ok merged h
    ∧ Forall2 (tuple_of rd sd) payload merged
    ∧ dict_ok region payload rd h
    ∧ dict_ok service payload sd h
    ∧ separate rd sd.
Proof.
  destruct (accumulate_ok payload [] ∅ ∅ h0) as (rd & sd & h & E & Hr & Hs & Hsep).
  - apply dict_ok_empty.
  - apply dict_ok_empty.
  - intros k k' l H. by rewrite lookup_empty in H.
  - simpl in Hr, Hs.
    destruct (emit_ok payload rd sd [] h) as (out & E' & Hout).
    { by destruct Hr as (_ & ? & _). }
    { by destruct Hs as (_ & ? & _). }
    exists rd, sd, out, h. split; [| done].
    unfold merge_prefixes. rewrite (bind_ok _ _ _ _ _ E). exact E'.
Qed.

(** C6: for every feed, [merge_prefixes] returns as many tuples as the feed
    has entries, in feed order, duplicates kept; the tuple of an entry
    carries the regions and the services of all the entries that share its
    prefix, in feed order. *)
Theorem merge_prefixes_one_tuple_per_record (payload : list prefix) (h0 : store) :
  ∃ merged h,
    merge_prefixes payload h0 = Ok merged h
    ∧ length merged = length payload
    ∧ ∀ i p, payload !! i = Some p →
        ∃ lr ls,
          merged !! i = Some (ip_prefix p, lr, ls)
          ∧ h !! lr = Some (region <$> records_of (ip_prefix p) payload)
          ∧ h !! ls = Some (service <$> records_of (ip_prefix p) payload).
Proof.
  destruct (merge_prefixes_spec payload h0)
    as (rd & sd & merged & h & E & Htup & (Hr & _) & (Hs & _) & _).
  exists merged, h. split; [done |]. split.
  - symmetry. by eapply Forall2_length.
  - intros i p Hp.
    destruct (Forall2_lookup_l _ _ _ _ _ Htup Hp) as (t & Ht & lr & ls & -> & Hlr & Hls).
    exists lr, ls. eauto.
Qed.

(** C7: in every tuple that [merge_prefixes] returns, the regions list and
    the services list have the same length, which is at least 1 and is the
    number of entries of the feed with the tuple's prefix. *)
Theorem merge_prefixes_lengths (payload : list prefix) (h0 : store) :
  ∃ merged h,
    merge_prefixes payload h0 = Ok merged h
    ∧ ∀ ip lr ls, (ip, lr, ls) ∈ merged →
        ∃ rs ss,
          h !! lr = Some rs ∧ h !! ls = Some ss
          ∧ length rs = length ss
          ∧ 1 ≤ length rs
          ∧ length rs = length (records_of ip payload).
Proof.
  destruct (merge_prefixes_spec payload h0)
    as (rd & sd & merged & h & E & Htup & (Hr & _) & (Hs & _) & _).
  exists merged, h. split; [done |].
  intros ip lr ls [i Hi]%list_elem_of_lookup.
  destruct (Forall2_lookup_r _ _ _ _ _ Htup Hi) as (p & Hp & lr' & ls' & Heq & Hlr & Hls).
  injection Heq as -> -> ->.
  exists (region <$> records_of (ip_prefix p) payload),
         (service <$> records_of (ip_prefix p) payload).
  split; [eauto |]. split; [eauto |].
  rewrite !length_fmap. split; [done |]. split; [| done].
  assert (p ∈ records_of (ip_prefix p) payload) as Hin.
  { apply records_of_present; [| done]. by eapply list_elem_of_lookup_2. }
  destruct (records_of (ip_prefix p) payload); [by apply elem_of_nil in Hin |].
  simpl. lia.
Qed.

(** ** The filter predicates *)

Lemma py_in_true x xs : py_in x xs = true ↔ x ∈ xs.
Proof. unfold py_in. apply bool_decide_eq_true. Qed.

Lemma py_in_false x xs : py_in x xs = false ↔ x ∉ xs.
Proof. unfold py_in. apply bool_decide_eq_false. Qed.

(** The early-return loop returns exactly when the two lists meet. *)
Lemma return_if_any_in_Some v xs ys w :
  return_if_any_in v xs ys = Some w ↔ w = v ∧ ∃ x, x ∈ xs ∧ x ∈ ys.
Proof.
  induction xs as [| a xs IH]; simpl.
  - split; [done |]. intros (_ & x & Hx & _). by apply elem_of_nil in Hx.
  - destruct (py_in a ys) eqn:Ha.
    + apply py_in_true in Ha. split.
      * intros [= <-]. split; [done |]. exists a. split; [by left | done].
      * by intros (-> & _).
    + apply py_in_false in Ha. rewrite IH. split.
      * intros (-> & x & Hx & Hy). split; [done |]. exists x. split; [by right | done].
      * intros (-> & x & Hx & Hy). split; [done |]. exists x. split; [| done].
        apply elem_of_cons in Hx as [-> | Hx]; done.
Qed.

Lemma return_if_any_in_None v xs ys :
  return_if_any_in v xs ys = None ↔ ¬ ∃ x, x ∈ xs ∧ x ∈ ys.
Proof.
  destruct (return_if_any_in v xs ys) as [w |] eqn:E.
  - apply return_if_any_in_Some in E as (_ & Hex). split; [done | by intros []].
  - split; [| done]. intros _ Hex.
    assert (return_if_any_in v xs ys = Some v) as E'
      by (by apply return_if_any_in_Some).
    congruence.
Qed.

Lemma valid_region_PyTrue pol rs :
  valid_region pol rs = PyTrue
  ↔ regions pol = [] ∨ ∃ x, x ∈ rs ∧ x ∈ regions pol.
Proof.
  unfold valid_region. destruct (regions pol) as [| a allowed] eqn:Hregions.
  - split; [by left | done].
  - destruct (return_if_any_in PyTrue (a :: allowed) rs) as [w |] eqn:E.
    + apply return_if_any_in_Some in E as (-> & x & Hx & Hy).
      split; [| done]. intros _. right. by exists x.
    + apply return_if_any_in_None in E. split; [done |].
      intros [? | (x & Hx & Hy)]; [done |]. destruct E. by exists x.
Qed.

Lemma valid_region_not_PyFalse pol rs : valid_region pol rs ≠ PyFalse.
Proof.
  unfold valid_region. destruct (regions pol) as [| a allowed]; [done |].
  destruct (return_if_any_in PyTrue (a :: allowed) rs) as [w |] eqn:E; [| done].
  by apply return_if_any_in_Some in E as (-> & _).
Qed.

(** C8: [valid_region] returns [True] exactly when no region was asked for
    or one of the given regions is among those asked for; with none asked
    for, every regions list passes. *)
Theorem valid_region_iff (pol : policy) (rs : list string) :
  (valid_region pol rs = PyTrue
   ↔ regions pol = [] ∨ ∃ x, x ∈ rs ∧ x ∈ regions pol)
  ∧ (truthy (valid_region pol rs) = true ↔ valid_region pol rs = PyTrue)
  ∧ valid_region (mkPolicy (includes pol) (excludes pol) []) rs = PyTrue.
Proof.
  split; [apply valid_region_PyTrue |]. split; [| done].
  by destruct (valid_region pol rs).
Qed.

Lemma valid_service_PyFalse pol ss :
  valid_service pol ss = PyFalse ↔ ∃ x, x ∈ ss ∧ x ∈ excludes pol.
Proof.
  unfold valid_service.
  destruct (return_if_any_in PyFalse (excludes pol) ss) as [w |] eqn:E.
  - apply return_if_any_in_Some in E as (-> & x & Hx & Hy).
    split; [| done]. intros _. by exists x.
  - apply return_if_any_in_None in E. split.
    + destruct (includes pol) as [| a inc]; [done |].
      destruct (return_if_any_in PyTrue (a :: inc) ss) as [w |] eqn:E'; [| done].
      by apply return_if_any_in_Some in E' as (-> & _).
    + intros (x & Hx & Hy). destruct E. by exists x.
Qed.

Lemma valid_service_PyTrue pol ss :
  valid_service pol ss = PyTrue
  ↔ (¬ ∃ x, x ∈ ss ∧ x ∈ excludes pol)
    ∧ (includes pol = [] ∨ ∃ x, x ∈ ss ∧ x ∈ includes pol).
Proof.
  unfold valid_service.
  destruct (return_if_any_in PyFalse (excludes pol) ss) as [w |] eqn:E.
  - apply return_if_any_in_Some in E as (-> & x & Hx & Hy).
    split; [done |]. intros (Hno & _). destruct Hno. by exists x.
  - apply return_if_any_in_None in E.
    assert (¬ ∃ x, x ∈ ss ∧ x ∈ excludes pol) as Hno.
    { intros (x & Hx & Hy). destruct E. by exists x. }
    destruct (includes pol) as [| a inc] eqn:Hinc.
    + split; [| done]. intros _. split; [done | by left].
    + destruct (return_if_any_in PyTrue (a :: inc) ss) as [w |] eqn:E'.
      * apply return_if_any_in_Some in E' as (-> & x & Hx & Hy).
        split; [| done]. intros _. split; [done |]. right. by exists x.
      * apply return_if_any_in_None in E'. split; [done |].
        intros (_ & [? | (x & Hx & Hy)]); [done |]. destruct E'. by exists x.
Qed.

(** C4: [valid_service] returns [False] when one of the given services is
    excluded; otherwise [True] when nothing is included or one of the given
    services is included; otherwise it is false in the [if] that calls it
    (the body ends and yields [None]).  With [S3] excluded, the two-entry
    feed of one prefix gives no row. *)
Theorem valid_service_iff (pol : policy) (ss : list string) :
  (valid_service pol ss = PyFalse ↔ ∃ x, x ∈ ss ∧ x ∈ excludes pol)
  ∧ (valid_service pol ss = PyTrue
     ↔ (¬ ∃ x, x ∈ ss ∧ x ∈ excludes pol)
       ∧ (includes pol = [] ∨ ∃ x, x ∈ ss ∧ x ∈ includes pol))
  ∧ (truthy (valid_service pol ss) = false
     ↔ (∃ x, x ∈ ss ∧ x ∈ excludes pol)
       ∨ (includes pol ≠ [] ∧ ¬ ∃ x, x ∈ ss ∧ x ∈ includes pol))
  ∧ annotations (mkPolicy [] ["S3"] []) feed1 []
    = Ok [] [["us-east-1"; "us-east-1"]; ["AMAZON"; "S3"]].
Proof.
  split; [apply valid_service_PyFalse |].
  split; [apply valid_service_PyTrue |].
  split; [| by vm_compute].
  pose proof (valid_service_PyFalse pol ss) as HF.
  pose proof (valid_service_PyTrue pol ss) as HT.
  destruct (valid_service pol ss) eqn:E; simpl.
  - split; [done |]. destruct HT as [HT _].
    destruct (HT eq_refl) as (Hno & Hinc).
    intros [Hex | (Hne & Hnone)]; [done |]. by destruct Hinc.
  - split; [| done]. intros _. left. by apply HF.
  - split; [| done]. intros _.
    assert (¬ ∃ x, x ∈ ss ∧ x ∈ excludes pol) as Hno.
    { intros Hex. by apply HF in Hex. }
    right. split.
    + intros Hnil. assert (PyNone = PyTrue) by (apply HT; auto). done.
    + intros Hex. assert (PyNone = PyTrue) by (apply HT; auto). done.
Qed.

(** C9: taking one name out of the exclude list never turns a passing
    services list into a failing one; so adding a name to it can only turn
    a pass into a fail. *)
Theorem valid_service_exclude_monotone
  (inc exc1 exc2 rs : list string) (x : string) (ss : list string) :
  truthy (valid_service (mkPolicy inc (exc1 ++ x :: exc2) rs) ss) = true →
  truthy (valid_service (mkPolicy inc (exc1 ++ exc2) rs) ss) = true.
Proof.
  intros H.
  assert (valid_service (mkPolicy inc (exc1 ++ x :: exc2) rs) ss = PyTrue) as HT.
  { by destruct (valid_service _ ss). }
  apply valid_service_PyTrue in HT as (Hno & Hinc). simpl in Hno, Hinc.
  cut (valid_service (mkPolicy inc (exc1 ++ exc2) rs) ss = PyTrue).
  { by intros ->. }
  apply valid_service_PyTrue. simpl. split; [| done].
  intros (y & Hy & Hex). apply Hno. exists y. split; [done |].
  apply elem_of_app in Hex as [Hex | Hex]; apply elem_of_app; [by left |].
  right. by right.
Qed.

Lemma valid_service_exclude_monotone_witness :
  truthy (valid_service (mkPolicy ["EC2"] ([] ++ "S3" :: ["ROUTE53"]) []) ["EC2"]) = true
  ∧ truthy (valid_service (mkPolicy ["EC2"] ([] ++ ["ROUTE53"]) []) ["EC2"]) = true.
Proof.
  split; [reflexivity |].
  apply (valid_service_exclude_monotone ["EC2"] [] ["ROUTE53"] [] "S3" ["EC2"]).
  reflexivity.
Defined.

(** ** [filter_amazon] *)

Lemma remove_first_elem x xs :
  x ∈ xs →
  ∃ l1 l2, xs = l1 ++ x :: l2 ∧ (x ∉ l1) ∧ remove_first x xs = Some (l1 ++ l2).
Proof.
  induction xs as [| y xs IH]; intros Hx; [by apply elem_of_nil in Hx |].
  simpl. destruct (decide (x = y)) as [<- | Hne].
  - exists [], xs. split; [done |]. split; [apply not_elem_of_nil | done].
  - apply elem_of_cons in Hx as [? | Hx]; [done |].
    destruct (IH Hx) as (l1 & l2 & -> & Hl1 & ->).
    exists (y :: l1), l2. split; [done |]. split; [| done].
    intros [? | ?]%elem_of_cons; done.
Qed.

Lemma filter_amazon_ok (l : loc) (h : store) xs :
  h !! l = Some xs →
  filter_amazon l h = Ok l (<[l := without_amazon xs]> h).
Proof.
  intros Hl. unfold filter_amazon, without_amazon.
  rewrite (bind_ok _ _ _ _ _ (deref_ok _ _ _ Hl)).
  destruct (bool_decide (1 < length xs) && py_in "AMAZON" xs) eqn:Hc.
  - apply andb_true_iff in Hc as [_ Hin%py_in_true].
    destruct (remove_first_elem _ _ Hin) as (l1 & l2 & _ & _ & Hrm).
    assert (py_remove l "AMAZON" h = Ok tt (<[l := l1 ++ l2]> h)) as E.
    { unfold py_remove. rewrite (bind_ok _ _ _ _ _ (deref_ok _ _ _ Hl)).
      rewrite Hrm. by apply assign_ok with xs. }
    rewrite (bind_ok _ _ _ _ _ E). by rewrite Hrm.
  - by rewrite list_insert_id.
Qed.

(** C5: [filter_amazon] changes the list exactly when it has more than one
    element and contains "AMAZON", and then takes out the first occurrence
    only; the row of services AMAZON, S3 gets component S3, the row of
    services AMAZON alone keeps AMAZON. *)
Theorem filter_amazon_removes_one
  (h : store) (l : loc) (xs : list string) (ip r : string) :
  h !! l = Some xs →
  (1 < length xs ∧ "AMAZON" ∈ xs →
     ∃ l1 l2, xs = l1 ++ "AMAZON" :: l2 ∧ ("AMAZON" ∉ l1)
              ∧ filter_amazon l h = Ok l (<[l := l1 ++ l2]> h))
  ∧ (¬ (1 < length xs ∧ "AMAZON" ∈ xs) → filter_amazon l h = Ok l h)
  ∧ project no_policy [(ip, 0, 1)] [] [[r]; ["AMAZON"; "S3"]]
    = Ok [(ip, "AWS", r, "S3")] [[r]; ["S3"]]
  ∧ project no_policy [(ip, 0, 1)] [] [[r]; ["AMAZON"]]
    = Ok [(ip, "AWS", r, "AMAZON")] [[r]; ["AMAZON"]].
Proof.
  intros Hl. rewrite (filter_amazon_ok _ _ _ Hl). unfold without_amazon.
  split; [| split; [| split; reflexivity]].
  - intros [Hlen Hin].
    destruct (remove_first_elem _ _ Hin) as (l1 & l2 & Heq & Hl1 & Hrm).
    exists l1, l2. split; [done |]. split; [done |].
    rewrite bool_decide_eq_true_2 by done.
    apply py_in_true in Hin. rewrite Hin. simpl. by rewrite Hrm.
  - intros Hno.
    destruct (bool_decide (1 < length xs) && py_in "AMAZON" xs) eqn:Hc.
    + apply andb_true_iff in Hc as [Hlen%bool_decide_eq_true Hin%py_in_true].
      destruct Hno. done.
    + by rewrite list_insert_id.
Qed.

Lemma filter_amazon_removes_one_witness :
  let h : store := [["us-east-1"]; ["AMAZON"; "EC2"; "AMAZON"]] in
  let xs := ["AMAZON"; "EC2"; "AMAZON"] in
  h !! 1 = Some xs
  ∧ (1 < length xs ∧ "AMAZON" ∈ xs →
       ∃ l1 l2, xs = l1 ++ "AMAZON" :: l2 ∧ ("AMAZON" ∉ l1)
                ∧ filter_amazon 1 h = Ok 1 (<[1 := l1 ++ l2]> h)).
Proof.
  split; [reflexivity |].
  apply (filter_amazon_removes_one
           [["us-east-1"]; ["AMAZON"; "EC2"; "AMAZON"]] 1
           ["AMAZON"; "EC2"; "AMAZON"] "3.5.0.0/16" "us-east-1").
  reflexivity.
Defined.

(** ** The projector on shared lists *)

(** One turn of the loop of [annotations] on a tuple that passes both
    filters: the services list object is rewritten in place, and the row is
    read from the store after that. *)
Lemma project_pass pol ip (lr ls : loc) rest filtered (h : store) rs ss r0 s0 :
  h !! lr = Some rs → h !! ls = Some ss → lr ≠ ls →
  truthy (valid_region pol rs) = true →
  truthy (valid_service pol ss) = true →
  head rs = Some r0 → head (without_amazon ss) = Some s0 →
  project pol ((ip, lr, ls) :: rest) filtered h
  = project pol rest (filtered ++ [(ip, "AWS", r0, s0)])
      (<[ls := without_amazon ss]> h).
Proof.
  intros Hlr Hls Hne Hvr Hvs Hr0 Hs0. simpl.
  rewrite (bind_ok _ _ _ _ _ (deref_ok _ _ _ Hlr)), Hvr.
  rewrite (bind_ok _ _ _ _ _ (deref_ok _ _ _ Hls)), Hvs.
  rewrite (bind_ok _ _ _ _ _ (filter_amazon_ok _ _ _ Hls)).
  assert (index0 lr (<[ls := without_amazon ss]> h)
          = Ok r0 (<[ls := without_amazon ss]> h)) as E1.
  { unfold index0.
    rewrite (bind_ok _ _ _ rs (<[ls := without_amazon ss]> h)).
    - by destruct rs as [| r rs']; [| injection Hr0 as ->].
    - apply deref_ok. by rewrite list_lookup_insert_ne. }
  assert (index0 ls (<[ls := without_amazon ss]> h)
          = Ok s0 (<[ls := without_amazon ss]> h)) as E2.
  { unfold index0.
    rewrite (bind_ok _ _ _ (without_amazon ss) (<[ls := without_amazon ss]> h)).
    - by destruct (without_amazon ss) as [| s ss']; [| injection Hs0 as ->].
    - apply deref_ok. apply list_lookup_insert_eq. by eapply lookup_lt_Some. }
  by rewrite (bind_ok _ _ _ _ _ E1), (bind_ok _ _ _ _ _ E2).
Qed.

Lemma records_of_all k payload :
  Forall (λ p, ip_prefix p = k) payload → records_of k payload = payload.
Proof.
  unfold records_of. induction 1 as [| p payload Hp _ IH]; [done |].
  rewrite filter_cons_True by done. by rewrite IH.
Qed.

Lemma tuples_of_one_prefix rd sd k (lr ls : loc) payload merged :
  Forall2 (tuple_of rd sd) payload merged →
  Forall (λ p, ip_prefix p = k) payload →
  rd !! k = Some lr → sd !! k = Some ls →
  merged = replicate (length payload) (k, lr, ls).
Proof.
  intros Htup Hall Hlr Hls.
  induction Htup as [| p t payload merged (lr' & ls' & -> & Hlr' & Hls') _ IH];
    [done |].
  apply Forall_cons in Hall as [Hp Hall]. simpl. rewrite <- IH by done.
  rewrite Hp in *. congruence.
Qed.

(** Aliasing: on a feed whose entries all have prefix [k], every tuple that
    [merge_prefixes] returns holds the same two list objects. *)
Lemma merge_prefixes_one_prefix k payload (h0 : store) :
  payload ≠ [] → Forall (λ p, ip_prefix p = k) payload →
  ∃ (lr ls : loc) (h : store),
    merge_prefixes payload h0 = Ok (replicate (length payload) (k, lr, ls)) h
    ∧ h !! lr = Some (region <$> payload)
    ∧ h !! ls = Some (service <$> payload)
    ∧ lr ≠ ls.
Proof.
  intros Hne Hall.
  destruct (merge_prefixes_spec payload h0)
    as (rd & sd & merged & h & E & Htup & (Hr & Hdr & _) & (Hs & Hds & _) & Hsep).
  destruct payload as [| p payload]; [done |].
  pose proof (Forall_inv Hall) as Hp.
  destruct (Hdr p) as [lr Hlr]; [by left |].
  destruct (Hds p) as [ls Hls]; [by left |].
  rewrite Hp in Hlr, Hls.
  exists lr, ls, h.
  rewrite <- (tuples_of_one_prefix rd sd k lr ls _ _ Htup Hall Hlr Hls).
  split; [done |].
  pose proof (Hr _ _ Hlr) as H1. pose proof (Hs _ _ Hls) as H2.
  rewrite records_of_all in H1, H2 by done.
  split; [done |]. split; [done |].
  intros ->. eauto.
Qed.

(** ** End-to-end runs of [annotations] *)

(** On the two-entry feed of one prefix the run does not return a single
    row. *)
Lemma annotations_feed1_not_one_row :
  ¬ ∃ h, annotations no_policy feed1 []
         = Ok [("3.5.0.0/16", "AWS", "us-east-1", "S3")] h.
Proof. intros [h H]. vm_compute in H. discriminate H. Qed.

(** C1 (amended): on the two-entry feed (AMAZON, then S3, one prefix, one
    region) with no filter, [annotations] builds two rows, one per entry of
    the feed, both equal to ("3.5.0.0/16", "AWS", "us-east-1", "S3"). *)
Theorem annotations_feed1_two_equal_rows (h0 : store) :
  ∃ h, annotations no_policy feed1 h0
       = Ok [("3.5.0.0/16", "AWS", "us-east-1", "S3");
             ("3.5.0.0/16", "AWS", "us-east-1", "S3")] h.
Proof.
  destruct (merge_prefixes_one_prefix "3.5.0.0/16" feed1 h0)
    as (lr & ls & h & E & Hlr & Hls & Hne); [done | by repeat constructor |].
  simpl in E, Hlr, Hls.
  eexists. unfold annotations. rewrite (bind_ok _ _ _ _ _ E).
  rewrite (project_pass _ _ _ _ _ _ _ _ _ "us-east-1" "S3" Hlr Hls Hne)
    by reflexivity.
  assert (without_amazon ["AMAZON"; "S3"] = ["S3"]) as -> by reflexivity.
  rewrite (project_pass _ _ lr ls _ _ _ ["us-east-1"; "us-east-1"] ["S3"]
             "us-east-1" "S3"); try reflexivity; try done.
  - by rewrite list_lookup_insert_ne.
  - apply list_lookup_insert_eq. by eapply lookup_lt_Some.
Qed.

(** C3: three entries of one prefix and one region with services AMAZON,
    AMAZON, S3, no filter: the rows carry components AMAZON, S3, S3, because
    the removal made for one tuple is seen through the next; with a copy of
    the lists per tuple they would carry AMAZON three times. *)
Theorem annotations_sees_earlier_removals (ip r : string) (h0 : store) :
  let payload := [mkPrefix ip r "AMAZON"; mkPrefix ip r "AMAZON";
                  mkPrefix ip r "S3"] in
  (∃ h, annotations no_policy payload h0
        = Ok [(ip, "AWS", r, "AMAZON"); (ip, "AWS", r, "S3");
              (ip, "AWS", r, "S3")] h)
  ∧ annotations_by_value no_policy payload
    = [(ip, "AWS", r, "AMAZON"); (ip, "AWS", r, "AMAZON");
       (ip, "AWS", r, "AMAZON")].
Proof.
  intros payload. split.
  - destruct (merge_prefixes_one_prefix ip payload h0)
      as (lr & ls & h & E & Hlr & Hls & Hne); [done | by repeat constructor |].
    simpl in E, Hlr, Hls.
    pose proof (lookup_lt_Some _ _ _ Hls) as Hbound.
    eexists. unfold annotations. rewrite (bind_ok _ _ _ _ _ E).
    rewrite (project_pass _ _ _ _ _ _ _ _ _ r "AMAZON" Hlr Hls Hne)
      by reflexivity.
    assert (without_amazon ["AMAZON"; "AMAZON"; "S3"] = ["AMAZON"; "S3"]) as ->
      by reflexivity.
    rewrite (project_pass _ _ lr ls _ _ _ [r; r; r] ["AMAZON"; "S3"] r "S3");
      try reflexivity; try done.
    2: by rewrite list_lookup_insert_ne.
    2: by apply list_lookup_insert_eq.
    assert (without_amazon ["AMAZON"; "S3"] = ["S3"]) as -> by reflexivity.
    rewrite list_insert_insert_eq.
    rewrite (project_pass _ _ lr ls _ _ _ [r; r; r] ["S3"] r "S3");
      try reflexivity; try done.
    + by rewrite list_lookup_insert_ne.
    + by apply list_lookup_insert_eq.
  - unfold annotations_by_value, merge_prefixes_by_value, payload.
    cbn [fmap list_fmap ip_prefix].
    rewrite (records_of_all ip) by (by repeat constructor).
    reflexivity.
Qed.

(** ** The scope-tree builder *)

Module CreateScopesFacts.
Import CreateScopes.

Section Runs.

Variable api : list request → request → response.

Lemma create_service_scope_run root tr :
  let req := mkRequest "AWS" "eq" "user_SaaS Provider" "AWS" root in
  create_service_scope api root tr
  = match id_of (api (posted tr) req) with
    | inr i => Ok i (tr ++ [Post "/app_scopes" req])
    | inl e => Raised e (tr ++ [Post "/app_scopes" req])
    end.
Proof.
  intros req. unfold create_service_scope.
  rewrite (bind_ok _ _ tr (api (posted tr) req) (tr ++ [Post "/app_scopes" req]))
    by done.
  unfold json_id. by destruct (id_of (api (posted tr) req)).
Qed.

Lemma create_region_scope_run ssid region tr :
  let req := mkRequest region "eq" "user_SaaS Region" region ssid in
  create_region_scope api ssid region tr
  = match id_of (api (posted tr) req) with
    | inr i => Ok i (tr ++ [Post "/app_scopes" req])
    | inl e => Raised e (tr ++ [Post "/app_scopes" req])
    end.
Proof.
  intros req. unfold create_region_scope.
  rewrite (bind_ok _ _ tr (api (posted tr) req) (tr ++ [Post "/app_scopes" req]))
    by done.
  unfold json_id. by destruct (id_of (api (posted tr) req)).
Qed.

(** The inner loop never raises and never reads an answer. *)
Lemma services_loop_run pol rsid services : ∀ tr,
  services_loop api pol rsid services tr
  = Ok tt (tr ++ services_events pol rsid services).
Proof.
  induction services as [| service rest IH]; intros tr.
  - simpl. by rewrite app_nil_r.
  - unfold services_events. simpl.
    destruct (truthy (valid_service pol service)).
    + rewrite (bind_ok _ _ tr tt
                 (tr ++ [Print (" " +:+ service);
                         Post "/app_scopes"
                           (mkRequest service "eq" "user_SaaS Component"
                              service rsid)])).
      * rewrite IH. by rewrite <- app_assoc.
      * unfold create_component_scope, print, post.
        unfold mbind, py_bind, bind. by rewrite <- app_assoc.
    + rewrite (bind_ok _ _ tr tt tr) by done. apply IH.
Qed.

(** One turn of the outer loop. *)
Lemma regions_loop_cons pol ssid region services rest tr :
  regions_loop api pol ssid ((region, services) :: rest) tr
  = if truthy (valid_region pol region) then
      let req := mkRequest region "eq" "user_SaaS Region" region ssid in
      let tr1 := tr ++ [Print region; Post "/app_scopes" req] in
      match id_of (api (posted (tr ++ [Print region])) req) with
      | inr rsid =>
          regions_loop api pol ssid rest
            (tr1 ++ services_events pol rsid services)
      | inl e => Raised e tr1
      end
    else regions_loop api pol ssid rest tr.
Proof.
  simpl. destruct (truthy (valid_region pol region)).
  - unfold mbind, py_bind, bind, print.
    rewrite create_region_scope_run. cbn zeta.
    rewrite <- app_assoc. cbn [app].
    destruct (id_of _) as [e | rsid]; [done |].
    by rewrite services_loop_run.
  - by rewrite (bind_ok _ _ tr tt tr).
Qed.

Lemma create_scopes_run pol root items :
  let req := mkRequest "AWS" "eq" "user_SaaS Provider" "AWS" root in
  create_scopes api pol root items []
  = match id_of (api [] req) with
    | inr ssid => regions_loop api pol ssid items [Post "/app_scopes" req]
    | inl e => Raised e [Post "/app_scopes" req]
    end.
Proof.
  intros req. unfold create_scopes.
  unfold mbind, py_bind, bind. rewrite create_service_scope_run. simpl.
  by destruct (id_of _).
Qed.

Lemma posted_app tr1 tr2 : posted (tr1 ++ tr2) = posted tr1 ++ posted tr2.
Proof. unfold posted. apply omap_app. Qed.

(** *** Only allowed names are requested *)

Lemma services_events_allowed pol items region services rsid :
  (region, services) ∈ items →
  truthy (valid_region pol region) = true →
  ∀ some, some ⊆ services →
    Forall (allowed_request pol items) (posted (services_events pol rsid some)).
Proof.
  intros Hin Hregion some. induction some as [| s some IH]; intros Hsub.
  - constructor.
  - assert (some ⊆ services) as Hsub'.
    { intros x Hx. apply Hsub. by right. }
    unfold services_events. simpl.
    destruct (truthy (valid_service pol s)) eqn:Hs; [| by apply IH].
    simpl. constructor; [| by apply IH].
    right. right. simpl. split; [done |]. split; [done |].
    exists region, services. split; [done |]. split; [done |].
    apply Hsub. by left.
Qed.

Lemma regions_loop_allowed pol items ssid rest : ∀ tr,
  rest ⊆ items →
  Forall (allowed_request pol items) (posted tr) →
  Forall (allowed_request pol items)
         (posted (final_state (regions_loop api pol ssid rest tr))).
Proof.
  induction rest as [| [region services] rest IH]; intros tr Hsub Htr;
    [done |].
  assert (rest ⊆ items) as Hsub'.
  { intros x Hx. apply Hsub. by right. }
  assert ((region, services) ∈ items) as Hin.
  { apply Hsub. by left. }
  rewrite regions_loop_cons.
  destruct (truthy (valid_region pol region)) eqn:Hregion; [| by apply IH].
  cbn zeta.
  assert (Forall (allowed_request pol items)
            (posted (tr ++ [Print region;
                            Post "/app_scopes"
                              (mkRequest region "eq" "user_SaaS Region"
                                 region ssid)]))) as Htr1.
  { rewrite posted_app. apply Forall_app. split; [done |].
    simpl. constructor; [| constructor].
    right. left. simpl. split; [done |]. split; [done |]. by exists services. }
  destruct (id_of _) as [e | rsid]; [done |].
  apply IH; [done |].
  rewrite posted_app. apply Forall_app. split; [done |].
  by eapply services_events_allowed.
Qed.

Lemma create_scopes_allowed pol root items :
  Forall (allowed_request pol items)
         (posted (final_state (create_scopes api pol root items []))).
Proof.
  rewrite create_scopes_run. cbn zeta.
  assert (Forall (allowed_request pol items)
            (posted [Post "/app_scopes"
                       (mkRequest "AWS" "eq" "user_SaaS Provider" "AWS" root)]))
    as Hfirst.
  { simpl. constructor; [| constructor]. by left. }
  destruct (id_of _) as [e | ssid]; [done |].
  by apply regions_loop_allowed.
Qed.

End Runs.

(** *** What the run reads of the answers *)

Section TwoPlatforms.

Variables api api' : list request → request → response.
Hypothesis same_ids : ∀ hist req,
  query_field req ≠ "user_SaaS Component" →
  id_of (api hist req) = id_of (api' hist req).



End TwoPlatforms.

(** *** Where a run stops *)

Section Stops.

Variable api : list request → request → response.








End Stops.

(** *** The scenario: one allowed region out of two *)




Lemma valid_region_only_us_east_1 name :
  truthy (valid_region (mkPolicy [] [] ["us-east-1"]) name) = true →
  name = "us-east-1".
Proof.
  unfold valid_region. simpl. by case_bool_decide.
Qed.

End CreateScopesFacts.

(** * Further properties *)

(** ** [filter_amazon]: what it leaves of a list *)

Lemma without_amazon_cases xs :
  without_amazon xs = xs
  ∨ ∃ l1 l2, xs = l1 ++ "AMAZON" :: l2 ∧ ("AMAZON" ∉ l1) ∧ l1 ++ l2 ≠ []
             ∧ without_amazon xs = l1 ++ l2.
Proof.
  unfold without_amazon.
  destruct (bool_decide (1 < length xs) && py_in "AMAZON" xs) eqn:Hc; [| by left].
  apply andb_true_iff in Hc as [Hlen%bool_decide_eq_true Hin%py_in_true].
  destruct (remove_first_elem _ _ Hin) as (l1 & l2 & -> & Hl1 & ->).
  right. exists l1, l2. repeat split; try done.
  intros Hnil. rewrite length_app in Hlen. simpl in Hlen.
  apply (f_equal length) in Hnil. rewrite length_app in Hnil. simpl in Hnil. lia.
Qed.

Lemma without_amazon_nonempty xs : xs ≠ [] → without_amazon xs ≠ [].
Proof.
  intros Hne. destruct (without_amazon_cases xs) as [-> | (l1 & l2 & _ & _ & Hne' & ->)];
    done.
Qed.

Lemma without_amazon_sublist xs : without_amazon xs `sublist_of` xs.
Proof.
  destruct (without_amazon_cases xs) as [-> | (l1 & l2 & -> & _ & _ & ->)]; [done |].
  apply sublist_app; [done |]. by apply sublist_cons.
Qed.

Lemma without_amazon_elem x xs : x ∈ without_amazon xs → x ∈ xs.
Proof. intros Hx. eapply elem_of_sublist; [done | apply without_amazon_sublist]. Qed.

Lemma without_amazon_keeps x xs :
  x ≠ "AMAZON" → x ∈ xs → x ∈ without_amazon xs.
Proof.
  intros Hx Hin.
  destruct (without_amazon_cases xs) as [-> | (l1 & l2 & -> & _ & _ & ->)]; [done |].
  apply elem_of_app in Hin as [Hin | Hin]; apply elem_of_app; [by left |].
  apply elem_of_cons in Hin as [-> | Hin]; [done | by right].
Qed.

Lemma without_amazon_others xs :
  filter (λ x, x ≠ "AMAZON") (without_amazon xs) = filter (λ x, x ≠ "AMAZON") xs.
Proof.
  destruct (without_amazon_cases xs) as [-> | (l1 & l2 & -> & _ & _ & ->)]; [done |].
  rewrite !filter_app. by f_equal.
Qed.

Lemma without_amazon_length xs :
  length (without_amazon xs) ≤ length xs ≤ S (length (without_amazon xs)).
Proof.
  destruct (without_amazon_cases xs) as [-> | (l1 & l2 & -> & _ & _ & ->)]; [lia |].
  rewrite !length_app. simpl. lia.
Qed.

(** X1: on any list object, [filter_amazon] returns the very object it was
    given, never raises, shortens the list by at most one element and never
    empties it, and changes no other list of the store. *)
Theorem filter_amazon_never_empties (h : store) (l : loc) (xs : list string) :
  h !! l = Some xs →
  ∃ ys, filter_amazon l h = Ok l (<[l := ys]> h)
        ∧ length ys ≤ length xs ≤ S (length ys)
        ∧ (xs ≠ [] → ys ≠ []).
Proof.
  intros Hl. exists (without_amazon xs).
  split; [by apply filter_amazon_ok |].
  split; [apply without_amazon_length | apply without_amazon_nonempty].
Qed.

Lemma filter_amazon_never_empties_witness :
  ["AMAZON"; "S3"] ≠ []
  ∧ ∃ ys, filter_amazon 0 [["AMAZON"; "S3"]] = Ok 0 (<[0 := ys]> [["AMAZON"; "S3"]])
          ∧ ys ≠ [].
Proof.
  split; [done |].
  destruct (filter_amazon_never_empties [["AMAZON"; "S3"]] 0 ["AMAZON"; "S3"] eq_refl)
    as (ys & Hrun & _ & Hne).
  exists ys. split; [exact Hrun | by apply Hne].
Defined.

(** X2: [filter_amazon] only ever takes "AMAZON" out: what it leaves is a
    sublist of the list it found, and the labels other than "AMAZON" are all
    kept, in their order. *)
Theorem filter_amazon_keeps_other_labels (h : store) (l : loc) (xs : list string) :
  h !! l = Some xs →
  ∃ ys, filter_amazon l h = Ok l (<[l := ys]> h)
        ∧ ys `sublist_of` xs
        ∧ filter (λ x, x ≠ "AMAZON") ys = filter (λ x, x ≠ "AMAZON") xs.
Proof.
  intros Hl. exists (without_amazon xs).
  split; [by apply filter_amazon_ok |].
  split; [apply without_amazon_sublist | apply without_amazon_others].
Qed.

Lemma filter_amazon_keeps_other_labels_witness :
  [["EC2"; "AMAZON"; "S3"; "AMAZON"]] !! 0 = Some ["EC2"; "AMAZON"; "S3"; "AMAZON"]
  ∧ ∃ ys, filter_amazon 0 [["EC2"; "AMAZON"; "S3"; "AMAZON"]]
          = Ok 0 (<[0 := ys]> [["EC2"; "AMAZON"; "S3"; "AMAZON"]])
          ∧ ys `sublist_of` ["EC2"; "AMAZON"; "S3"; "AMAZON"]
          ∧ filter (λ x, x ≠ "AMAZON") ys
            = filter (λ x, x ≠ "AMAZON") ["EC2"; "AMAZON"; "S3"; "AMAZON"].
Proof.
  split; [reflexivity |].
  apply (filter_amazon_keeps_other_labels
           [["EC2"; "AMAZON"; "S3"; "AMAZON"]] 0 ["EC2"; "AMAZON"; "S3"; "AMAZON"]).
  reflexivity.
Defined.

(** ** [annotations]: the loop on the shared lists *)

Lemma project_skip_region pol ip (lr ls : loc) rest filtered (h : store) rs :
  h !! lr = Some rs → truthy (valid_region pol rs) = false →
  project pol ((ip, lr, ls) :: rest) filtered h = project pol rest filtered h.
Proof.
  intros Hlr Hvr. simpl.
  by rewrite (bind_ok _ _ _ _ _ (deref_ok _ _ _ Hlr)), Hvr.
Qed.

Lemma project_skip_service pol ip (lr ls : loc) rest filtered (h : store) rs ss :
  h !! lr = Some rs → h !! ls = Some ss →
  truthy (valid_region pol rs) = true →
  truthy (valid_service pol ss) = false →
  project pol ((ip, lr, ls) :: rest) filtered h = project pol rest filtered h.
Proof.
  intros Hlr Hls Hvr Hvs. simpl.
  rewrite (bind_ok _ _ _ _ _ (deref_ok _ _ _ Hlr)), Hvr.
  by rewrite (bind_ok _ _ _ _ _ (deref_ok _ _ _ Hls)), Hvs.
Qed.

Lemma truthy_PyTrue v : truthy v = true ↔ v = PyTrue.
Proof. by destruct v. Qed.

Lemma services_inv_refl pol S : services_inv pol S S.
Proof. by repeat split. Qed.

Lemma services_inv_other pol S ss x :
  services_inv pol S ss → x ≠ "AMAZON" → x ∈ S → x ∈ ss.
Proof.
  intros (_ & _ & Hfilter & _) Hx Hin.
  assert (x ∈ filter (λ x, x ≠ "AMAZON") S) as Hin'
    by by apply list_elem_of_filter.
  rewrite <- Hfilter in Hin'. by apply list_elem_of_filter in Hin' as [_ ?].
Qed.

Lemma services_inv_elem pol S ss x : services_inv pol S ss → x ∈ ss → x ∈ S.
Proof. intros (_ & Hsub & _) Hx. by eapply elem_of_sublist. Qed.

(** A list that passes the service filter at some point of the loop
    passed it as [merge_prefixes] built it. *)
Lemma services_inv_pass pol S ss :
  services_inv pol S ss →
  truthy (valid_service pol ss) = true → truthy (valid_service pol S) = true.
Proof.
  intros Hinv Hpass.
  apply truthy_PyTrue, valid_service_PyTrue in Hpass as (Hno & Hinc).
  apply truthy_PyTrue, valid_service_PyTrue. split.
  - intros (x & Hx & Hex). apply Hno. exists x. split; [| done].
    destruct Hinv as (_ & _ & _ & Hexc). by apply Hexc.
  - destruct Hinc as [? | (x & Hx & Hin)]; [by left |].
    right. exists x. split; [| done]. by eapply services_inv_elem.
Qed.

(** A list that fails the service filter at some point of the loop failed
    it as [merge_prefixes] built it, unless "AMAZON" is included. *)
Lemma services_inv_fail pol S ss :
  services_inv pol S ss →
  truthy (valid_service pol ss) = false →
  truthy (valid_service pol S) = false ∨ "AMAZON" ∈ includes pol.
Proof.
  intros Hinv Hfail.
  destruct (truthy (valid_service pol S)) eqn:HS; [| by left].
  destruct (decide ("AMAZON" ∈ includes pol)) as [? | Hnot]; [by right |].
  apply truthy_PyTrue, valid_service_PyTrue in HS as (Hno & Hinc).
  assert (valid_service pol ss = PyTrue) as Hpass; [| by rewrite Hpass in Hfail].
  apply valid_service_PyTrue. split.
  - intros (x & Hx & Hex). apply Hno. exists x. split; [| done].
    by eapply services_inv_elem.
  - destruct Hinc as [? | (x & Hx & Hin)]; [by left |].
    right. exists x. split; [| done].
    eapply services_inv_other; [done | | done]. by intros ->.
Qed.

Lemma services_inv_step pol S ss :
  services_inv pol S ss →
  truthy (valid_service pol ss) = true →
  services_inv pol S (without_amazon ss).
Proof.
  intros Hinv Hpass. pose proof Hinv as (Hne & Hsub & Hfilter & Hexc).
  split; [| split; [| split]].
  - intros HS. by apply without_amazon_nonempty, Hne.
  - etrans; [apply without_amazon_sublist | done].
  - by rewrite without_amazon_others.
  - intros x Hx HxS. exfalso.
    apply truthy_PyTrue, valid_service_PyTrue in Hpass as (Hno & _).
    apply Hno. exists x. split; [by apply Hexc | done].
Qed.

Lemma records_of_self payload p :
  p ∈ payload → p ∈ records_of (ip_prefix p) payload.
Proof. intros Hp. by apply records_of_present. Qed.

Lemma head_is_Some_elem {A} (l : list A) x : x ∈ l → ∃ y, head l = Some y.
Proof. destruct l as [| y l]; [by intros ?%elem_of_nil | by exists y]. Qed.

Lemma project_spec pol payload rd sd ps todo :
  Forall2 (tuple_of rd sd) ps todo →
  (∀ p, p ∈ ps → p ∈ payload) →
  ∀ filtered h,
    project_inv pol payload rd sd h →
    ∃ rows h',
      project pol todo filtered h = Ok (filtered ++ rows) h'
      ∧ project_inv pol payload rd sd h'
      ∧ rows_match pol payload ps rows.
Proof.
  induction 1 as [| p t ps todo (lr & ls & -> & Hlr & Hls) _ IH];
    intros Hsub filtered h Hinv.
  { exists [], h. rewrite app_nil_r. split; [done |]. split; [done | constructor]. }
  assert (∀ q, q ∈ ps → q ∈ payload) as Hsub'.
  { intros q Hq. apply Hsub. by right. }
  assert (p ∈ payload) as Hp by (apply Hsub; by left).
  pose proof Hinv as (Hregs & Hsvcs & Hinj & Hsep).
  pose proof (Hregs _ _ Hlr) as HR.
  destruct (Hsvcs _ _ Hls) as (ss & Hss & Hsinv).
  assert (lr ≠ ls) as Hne by (intros ->; eauto).
  destruct (truthy (valid_region pol (regions_of payload (ip_prefix p)))) eqn:Hvr.
  2: { rewrite (project_skip_region _ _ _ _ _ _ _ _ HR Hvr).
       destruct (IH Hsub' filtered h Hinv) as (rows & h' & E & Hinv' & Hrows).
       exists rows, h'. split; [done |]. split; [done |].
       apply rows_skip; [| done]. left. unfold passes. by rewrite Hvr. }
  destruct (truthy (valid_service pol ss)) eqn:Hvs.
  2: { rewrite (project_skip_service _ _ _ _ _ _ _ _ _ HR Hss Hvr Hvs).
       destruct (IH Hsub' filtered h Hinv) as (rows & h' & E & Hinv' & Hrows).
       exists rows, h'. split; [done |]. split; [done |].
       apply rows_skip; [| done].
       destruct (services_inv_fail _ _ _ Hsinv Hvs) as [HS | ?]; [| by right].
       left. unfold passes. by rewrite HS, andb_false_r. }
  assert (region p ∈ regions_of payload (ip_prefix p)) as HinR.
  { apply list_elem_of_fmap. exists p. split; [done | by apply records_of_self]. }
  assert (service p ∈ services_of payload (ip_prefix p)) as HinS.
  { apply list_elem_of_fmap. exists p. split; [done | by apply records_of_self]. }
  destruct (head_is_Some_elem _ _ HinR) as [r0 Hr0].
  assert (without_amazon ss ≠ []) as Hne'.
  { apply without_amazon_nonempty. destruct Hsinv as (Hnonempty & _).
    apply Hnonempty. intros HS. rewrite HS in HinS. by apply elem_of_nil in HinS. }
  destruct (without_amazon ss) as [| s0 ss'] eqn:Hwa; [done |].
  rewrite (project_pass _ _ _ _ _ _ _ _ _ r0 s0 HR Hss Hne Hvr Hvs Hr0)
    by by rewrite Hwa.
  rewrite Hwa.
  destruct (IH Hsub' (filtered ++ [(ip_prefix p, "AWS", r0, s0)])
              (<[ls := s0 :: ss']> h)) as (rows & h' & E & Hinv' & Hrows).
  { split; [| split; [| done]].
    - intros k l Hk. rewrite list_lookup_insert_ne; [eauto |].
      intros <-. eauto.
    - intros k l Hk. destruct (decide (l = ls)) as [-> | Hl].
      + assert (k = ip_prefix p) as -> by eauto.
        exists (s0 :: ss'). split.
        * apply list_lookup_insert_eq. by eapply lookup_lt_Some.
        * rewrite <- Hwa. by apply services_inv_step.
      + rewrite list_lookup_insert_ne by done. eauto. }
  exists ((ip_prefix p, "AWS", r0, s0) :: rows), h'.
  split; [by rewrite E, <- app_assoc |]. split; [done |].
  apply rows_keep; [| done].
  exists r0, s0. split; [done |]. split; [done |]. split.
  - eapply services_inv_elem; [done |].
    apply without_amazon_elem. rewrite Hwa. by left.
  - unfold passes. rewrite Hvr. simpl. by eapply services_inv_pass.
Qed.

(** Every run of [annotations] returns, and its rows stand to the feed as
    [rows_match] says. *)
Lemma annotations_spec pol payload (h0 : store) :
  ∃ rows h, annotations pol payload h0 = Ok rows h
            ∧ rows_match pol payload payload rows.
Proof.
  destruct (merge_prefixes_spec payload h0)
    as (rd & sd & merged & h & E & Htup & (Hr & _) & (Hs & _ & Hinj) & Hsep).
  destruct (project_spec pol payload rd sd payload merged Htup (λ _ H, H) [] h)
    as (rows & h' & E' & _ & Hrows).
  { split; [done |]. split; [| done].
    intros k l Hk. exists (services_of payload k).
    split; [by apply Hs | apply services_inv_refl]. }
  exists rows, h'. split; [| done].
  unfold annotations. by rewrite (bind_ok _ _ _ _ _ E).
Qed.

Lemma rows_match_kept pol payload ps rows :
  rows_match pol payload ps rows →
  ∃ kept, kept `sublist_of` ps ∧ Forall2 (row_of pol payload) kept rows.
Proof.
  induction 1 as [| p ps rows _ _ (kept & Hsub & Hrows)
                  | p ps r rows Hr _ (kept & Hsub & Hrows)].
  - exists []. split; [done | constructor].
  - exists kept. split; [by apply sublist_cons | done].
  - exists (p :: kept). split; [by apply sublist_skip | by constructor].
Qed.

Lemma rows_match_filter pol payload ps rows :
  "AMAZON" ∉ includes pol →
  rows_match pol payload ps rows →
  Forall2 (row_of pol payload) (filter (λ p, passes pol payload p = true) ps) rows.
Proof.
  intros Hinc. induction 1 as [| p ps rows [Hfail | ?] _ IH | p ps r rows Hr _ IH].
  - constructor.
  - rewrite filter_cons_False; [done |]. by rewrite Hfail.
  - done.
  - pose proof Hr as (_ & _ & _ & _ & _ & Hpass).
    rewrite filter_cons_True by done. by constructor.
Qed.

Lemma row_of_ips pol payload kept rows :
  Forall2 (row_of pol payload) kept rows → row_ip <$> rows = ip_prefix <$> kept.
Proof.
  induction 1 as [| p r kept rows (r0 & s0 & -> & _) _ IH]; [done |].
  by rewrite !fmap_cons, IH.
Qed.

Lemma elem_of_regions_of payload k x :
  x ∈ regions_of payload k
  ↔ ∃ p, p ∈ payload ∧ ip_prefix p = k ∧ region p = x.
Proof.
  unfold regions_of, records_of. rewrite list_elem_of_fmap. split.
  - intros (p & -> & [Hk Hp]%list_elem_of_filter). by exists p.
  - intros (p & Hp & Hk & <-). exists p. split; [done |].
    by apply list_elem_of_filter.
Qed.

Lemma elem_of_services_of payload k x :
  x ∈ services_of payload k
  ↔ ∃ p, p ∈ payload ∧ ip_prefix p = k ∧ service p = x.
Proof.
  unfold services_of, records_of. rewrite list_elem_of_fmap. split.
  - intros (p & -> & [Hk Hp]%list_elem_of_filter). by exists p.
  - intros (p & Hp & Hk & <-). exists p. split; [done |].
    by apply list_elem_of_filter.
Qed.

(** ** [annotations]: what every run gives *)

(** X3: on a feed whose entries are complete (each carries [ip_prefix],
    [region] and [service]), for every policy and store, [annotations]
    returns: neither the subscripts [regions[ip_prefix]] and
    [services[ip_prefix]] of the second loop of [merge_prefixes] nor the
    [[0]] subscripts of the loop of [annotations] ever raise, also after
    "AMAZON" has been taken out of a list; and it builds at most one row per
    entry of the feed. *)
Theorem annotations_never_raises (pol : policy) (payload : list prefix)
  (h0 : store) :
  ∃ rows h, annotations pol payload h0 = Ok rows h
            ∧ length rows ≤ length payload.
Proof.
  destruct (annotations_spec pol payload h0) as (rows & h & E & Hrows).
  exists rows, h. split; [done |].
  destruct (rows_match_kept _ _ _ _ Hrows) as (kept & Hsub & Hall).
  rewrite <- (Forall2_length _ _ _ Hall). by apply sublist_length.
Qed.

(** X4: the rows follow the feed: they are built, in feed order, for some
    of the entries of the feed; the row of an entry has the entry's prefix,
    provider "AWS", the region of the first entry of the feed with that
    prefix, and as component one of the services that the feed lists for
    that prefix. *)
Theorem annotations_rows_follow_feed (pol : policy) (payload : list prefix)
  (h0 : store) :
  ∃ rows h kept,
    annotations pol payload h0 = Ok rows h
    ∧ kept `sublist_of` payload
    ∧ Forall2 (λ p r,
                 row_ip r = ip_prefix p
                 ∧ row_provider r = "AWS"
                 ∧ Some (row_region r)
                   = head (region <$> records_of (ip_prefix p) payload)
                 ∧ row_component r
                   ∈ service <$> records_of (ip_prefix p) payload)
              kept rows.
Proof.
  destruct (annotations_spec pol payload h0) as (rows & h & E & Hrows).
  destruct (rows_match_kept _ _ _ _ Hrows) as (kept & Hsub & Hall).
  exists rows, h, kept. split; [done |]. split; [done |].
  eapply Forall2_impl; [exact Hall |].
  by intros p r (r0 & s0 & -> & Hr0 & Hs0 & _).
Qed.

(** X5: the filters hold for the whole prefix of every row, whatever the
    loop has removed before: when regions are asked for, the feed lists the
    prefix in one of them; the feed lists the prefix under no excluded
    service; and when services are included, the feed lists the prefix under
    one of them. *)
Theorem annotations_rows_respect_policy (pol : policy) (payload : list prefix)
  (h0 : store) :
  ∃ rows h,
    annotations pol payload h0 = Ok rows h
    ∧ ∀ r, r ∈ rows →
        (regions pol = []
         ∨ ∃ p, p ∈ payload ∧ ip_prefix p = row_ip r ∧ region p ∈ regions pol)
        ∧ (∀ p, p ∈ payload → ip_prefix p = row_ip r →
                service p ∉ excludes pol)
        ∧ (includes pol = []
           ∨ ∃ p, p ∈ payload ∧ ip_prefix p = row_ip r
                  ∧ service p ∈ includes pol).
Proof.
  destruct (annotations_spec pol payload h0) as (rows & h & E & Hrows).
  destruct (rows_match_kept _ _ _ _ Hrows) as (kept & _ & Hall).
  exists rows, h. split; [done |].
  intros r [i Hi]%list_elem_of_lookup.
  destruct (Forall2_lookup_r _ _ _ _ _ Hall Hi)
    as (p & _ & r0 & s0 & -> & _ & _ & Hpass).
  unfold passes in Hpass. apply andb_true_iff in Hpass as [Hvr Hvs].
  apply truthy_PyTrue, valid_region_PyTrue in Hvr.
  apply truthy_PyTrue, valid_service_PyTrue in Hvs as [Hno Hinc].
  unfold row_ip. simpl. split; [| split].
  - destruct Hvr as [? | (x & Hx & Hallowed)]; [by left |].
    apply elem_of_regions_of in Hx as (q & Hq & Hk & <-). right. by exists q.
  - intros q Hq Hk Hex. apply Hno. exists (service q). split; [| done].
    apply elem_of_services_of. by exists q.
  - destruct Hinc as [? | (x & Hx & Hin)]; [by left |].
    apply elem_of_services_of in Hx as (q & Hq & Hk & <-). right. by exists q.
Qed.

(** X6: with no filter at all, every entry of the feed gives a row: the
    rows carry the prefixes of the feed, in feed order, duplicates
    included. *)
Theorem annotations_no_policy_one_row_per_entry (payload : list prefix)
  (h0 : store) :
  ∃ rows h, annotations no_policy payload h0 = Ok rows h
            ∧ row_ip <$> rows = ip_prefix <$> payload.
Proof.
  destruct (annotations_spec no_policy payload h0) as (rows & h & E & Hrows).
  exists rows, h. split; [done |].
  apply (rows_match_filter no_policy) in Hrows; [| apply not_elem_of_nil].
  rewrite (row_of_ips _ _ _ _ Hrows). f_equal.
  assert (∀ l : list prefix,
            filter (λ p, passes no_policy payload p = true) l = l) as Hall;
    [| apply Hall].
  induction l as [| p l IH]; [done |].
  rewrite filter_cons_True by done. by rewrite IH.
Qed.

(** X7: when "AMAZON" is not one of the included services, the rows are
    those of the entries whose prefix passes the region filter and the
    service filter on the complete lists of the prefix, in feed order: the
    removals made by the loop change no decision. *)
Theorem annotations_rows_of_passing_entries (pol : policy)
  (payload : list prefix) (h0 : store) :
  "AMAZON" ∉ includes pol →
  ∃ rows h,
    annotations pol payload h0 = Ok rows h
    ∧ row_ip <$> rows
      = ip_prefix <$> filter (λ p, passes pol payload p = true) payload.
Proof.
  intros Hinc.
  destruct (annotations_spec pol payload h0) as (rows & h & E & Hrows).
  exists rows, h. split; [done |].
  apply (rows_match_filter pol) in Hrows; [| done].
  by rewrite (row_of_ips _ _ _ _ Hrows).
Qed.

Lemma annotations_rows_of_passing_entries_witness :
  ("AMAZON" ∉ includes (mkPolicy ["S3"] [] []))
  ∧ ∃ rows h,
      annotations (mkPolicy ["S3"] [] [])
        (feed1 ++ [mkPrefix "52.0.0.0/8" "eu-west-1" "EC2"]) [] = Ok rows h
      ∧ row_ip <$> rows
        = ip_prefix <$>
            filter (λ p, passes (mkPolicy ["S3"] [] [])
                           (feed1 ++ [mkPrefix "52.0.0.0/8" "eu-west-1" "EC2"]) p
                         = true)
                   (feed1 ++ [mkPrefix "52.0.0.0/8" "eu-west-1" "EC2"]).
Proof.
  assert ("AMAZON" ∉ includes (mkPolicy ["S3"] [] [])) as Hinc.
  { simpl. by intros ?%list_elem_of_singleton. }
  split; [exact Hinc |].
  exact (annotations_rows_of_passing_entries (mkPolicy ["S3"] [] [])
           (feed1 ++ [mkPrefix "52.0.0.0/8" "eu-west-1" "EC2"]) [] Hinc).
Defined.

(** X8: what the loop of [annotations] does to the lists that
    [merge_prefixes] built: it leaves every regions list as it was, and of
    a services list it takes out nothing but "AMAZON", never the last
    element. *)
Theorem annotations_store_effect (pol : policy) (payload : list prefix)
  (h0 : store) :
  ∃ merged h1 rows h2,
    merge_prefixes payload h0 = Ok merged h1
    ∧ project pol merged [] h1 = Ok rows h2
    ∧ ∀ ip lr ls, (ip, lr, ls) ∈ merged →
        h2 !! lr = h1 !! lr
        ∧ ∃ S ss, h1 !! ls = Some S ∧ h2 !! ls = Some ss
                  ∧ ss ≠ []
                  ∧ ss `sublist_of` S
                  ∧ filter (λ x, x ≠ "AMAZON") ss = filter (λ x, x ≠ "AMAZON") S.
Proof.
  destruct (merge_prefixes_spec payload h0)
    as (rd & sd & merged & h1 & E & Htup & (Hr & _) & (Hs & _ & Hinj) & Hsep).
  destruct (project_spec pol payload rd sd payload merged Htup (λ _ H, H) [] h1)
    as (rows & h2 & E' & (Hr2 & Hs2 & _) & _).
  { split; [done |]. split; [| done].
    intros k l Hk. exists (services_of payload k).
    split; [by apply Hs | apply services_inv_refl]. }
  exists merged, h1, rows, h2. split; [done |]. split; [done |].
  intros ip lr ls [i Hi]%list_elem_of_lookup.
  destruct (Forall2_lookup_r _ _ _ _ _ Htup Hi)
    as (p & Hp & lr' & ls' & Heq & Hlr & Hls).
  injection Heq as -> -> ->.
  apply list_elem_of_lookup_2 in Hp. split.
  - rewrite (Hr2 _ _ Hlr). symmetry. by apply Hr.
  - destruct (Hs2 _ _ Hls) as (ss & Hss & Hne & Hsub & Hfilter & _).
    exists (services_of payload (ip_prefix p)), ss.
    split; [by apply Hs |]. split; [done |]. split; [| done].
    apply Hne. intros Hnil.
    assert (service p ∈ services_of payload (ip_prefix p)) as Hin.
    { apply elem_of_services_of. by exists p. }
    rewrite Hnil in Hin. by apply elem_of_nil in Hin.
Qed.

(** ** [merge_prefixes]: sharing and fresh lists *)

(** X9: two tuples returned by [merge_prefixes] hold the same two list
    objects when they have the same prefix, and four different list objects
    when they have different prefixes; no list object serves both as a
    regions list and as a services list. *)
Theorem merge_prefixes_sharing (payload : list prefix) (h0 : store) :
  ∃ merged h,
    merge_prefixes payload h0 = Ok merged h
    ∧ ∀ i j k1 (lr1 ls1 : loc) k2 (lr2 ls2 : loc),
        merged !! i = Some (k1, lr1, ls1) →
        merged !! j = Some (k2, lr2, ls2) →
        lr1 ≠ ls2
        ∧ (k1 = k2 → lr1 = lr2 ∧ ls1 = ls2)
        ∧ (k1 ≠ k2 → lr1 ≠ lr2 ∧ ls1 ≠ ls2).
Proof.
  destruct (merge_prefixes_spec payload h0)
    as (rd & sd & merged & h & E & Htup & (_ & _ & Hinjr) & (_ & _ & Hinjs) & Hsep).
  exists merged, h. split; [done |].
  intros i j k1 lr1 ls1 k2 lr2 ls2 Hi Hj.
  destruct (Forall2_lookup_r _ _ _ _ _ Htup Hi)
    as (p1 & _ & ? & ? & [= -> -> ->] & Hlr1 & Hls1).
  destruct (Forall2_lookup_r _ _ _ _ _ Htup Hj)
    as (p2 & _ & ? & ? & [= -> -> ->] & Hlr2 & Hls2).
  split; [| split].
  - intros ->. eauto.
  - intros Hk. rewrite Hk in *. split; congruence.
  - intros Hk. split; intros ->; eauto.
Qed.

Lemma setdefault_append_frame (n0 : nat) d k x (h : store) d' h' :
  setdefault_append d k x h = Ok d' h' →
  (∀ k l, d !! k = Some l → n0 ≤ l) → n0 ≤ length h →
  take n0 h' = take n0 h
  ∧ (∀ k l, d' !! k = Some l → n0 ≤ l)
  ∧ dom d' = {[k]} ∪ dom d
  ∧ length h' = length h + (if d !! k is Some _ then 0 else 1).
Proof.
  intros Hrun Hbound Hlen. unfold setdefault_append in Hrun.
  destruct (d !! k) as [l |] eqn:Hk.
  - unfold mbind, py_bind, bind, mret, py_ret, ret, append, deref, assign in Hrun.
    unfold mbind, py_bind, bind in Hrun.
    destruct (h !! l) as [xs |] eqn:Hl; [| done].
    rewrite Hl in Hrun. injection Hrun as <- <-.
    split; [apply take_insert_ge; eauto |]. split; [| split].
    + intros k' l'. rewrite lookup_insert. case_decide; [| eauto].
      intros [= <-]. eauto.
    + by rewrite dom_insert_L.
    + rewrite length_insert. lia.
  - unfold mbind, py_bind, bind, mret, py_ret, ret, append, deref, assign,
      new_list in Hrun.
    unfold mbind, py_bind, bind in Hrun.
    rewrite lookup_app_r, Nat.sub_diag in Hrun by done. simpl in Hrun.
    rewrite lookup_app_r, Nat.sub_diag in Hrun by done. simpl in Hrun.
    injection Hrun as <- <-.
    split; [| split; [| split]].
    + rewrite take_insert_ge by done. by rewrite take_app_le.
    + intros k' l'. rewrite lookup_insert. case_decide; [| eauto].
      by intros [= <-].
    + by rewrite dom_insert_L.
    + rewrite length_insert, length_app. simpl. lia.
Qed.

Lemma accumulate_frame (n0 : nat) todo : ∀ rd sd (h : store) rd' sd' h',
  accumulate todo rd sd h = Ok (rd', sd') h' →
  (∀ k l, rd !! k = Some l → n0 ≤ l) →
  (∀ k l, sd !! k = Some l → n0 ≤ l) →
  n0 ≤ length h →
  take n0 h' = take n0 h
  ∧ (∀ k l, rd' !! k = Some l → n0 ≤ l)
  ∧ (∀ k l, sd' !! k = Some l → n0 ≤ l).
Proof.
  induction todo as [| p todo IH]; intros rd sd h rd' sd' h' Hrun Hr Hs Hlen.
  - by injection Hrun as <- <- <-.
  - simpl in Hrun. unfold mbind at 1, py_bind at 1, bind at 1 in Hrun.
    destruct (setdefault_append rd (ip_prefix p) (region p) h)
      as [rd1 h1 | ] eqn:E1; [| done].
    unfold mbind at 1, py_bind at 1, bind at 1 in Hrun.
    destruct (setdefault_append sd (ip_prefix p) (service p) h1)
      as [sd1 h2 | ] eqn:E2; [| done].
    destruct (setdefault_append_frame n0 _ _ _ _ _ _ E1 Hr)
      as (Ht1 & Hr1 & _ & Hl1); [lia |].
    destruct (setdefault_append_frame n0 _ _ _ _ _ _ E2 Hs)
      as (Ht2 & Hs1 & _ & Hl2); [lia |].
    destruct (IH rd1 sd1 h2 rd' sd' h' Hrun Hr1 Hs1) as (Ht & Hr' & Hs');
      [lia |].
    split; [by rewrite Ht, Ht2, Ht1 | done].
Qed.

Lemma emit_store todo : ∀ rd sd merged (h : store) out h',
  emit todo rd sd merged h = Ok out h' → h' = h.
Proof.
  induction todo as [| p todo IH]; intros rd sd merged h out h' Hrun.
  - by injection Hrun as <- <-.
  - simpl in Hrun. unfold subscript in Hrun.
    destruct (rd !! ip_prefix p) as [lr |]; [| done].
    destruct (sd !! ip_prefix p) as [ls |]; [| done].
    by apply IH in Hrun.
Qed.

(** The tuples of the second loop hold what the dictionaries hold. *)
Lemma emit_elem todo : ∀ rd sd merged (h : store) out h',
  emit todo rd sd merged h = Ok out h' →
  ∀ ip lr ls,
    (ip, lr, ls) ∈ out →
    (ip, lr, ls) ∈ merged ∨ (rd !! ip = Some lr ∧ sd !! ip = Some ls).
Proof.
  induction todo as [| p todo IH];
    intros rd sd merged h out h' Hrun ip lr ls Hin.
  - injection Hrun as <- <-. by left.
  - simpl in Hrun. unfold subscript in Hrun.
    destruct (rd !! ip_prefix p) as [lr0 |] eqn:Hr; [| done].
    destruct (sd !! ip_prefix p) as [ls0 |] eqn:Hs; [| done].
    destruct (IH _ _ _ _ _ _ Hrun ip lr ls Hin) as [Hold | Hnew]; [| by right].
    apply elem_of_app in Hold as [Hold | Hlast]; [by left |].
    apply list_elem_of_singleton in Hlast as [= -> -> ->]. by right.
Qed.

(** X10: [merge_prefixes] changes no list that existed before the call,
    and every list that its tuples hold is one that the call itself made:
    none of them is a list that existed before. *)
Theorem merge_prefixes_fresh_lists (payload : list prefix) (h0 : store) :
  ∃ merged h,
    merge_prefixes payload h0 = Ok merged h
    ∧ take (length h0) h = h0
    ∧ ∀ ip lr ls,
        (ip, lr, ls) ∈ merged →
        length h0 ≤ lr ∧ length h0 ≤ ls.
Proof.
  destruct (merge_prefixes_spec payload h0) as (_ & _ & merged & h & E & _).
  exists merged, h. split; [done |].
  unfold merge_prefixes in E. unfold mbind, py_bind, bind in E.
  destruct (accumulate payload ∅ ∅ h0) as [[rd sd] h1 |] eqn:Eacc; [| done].
  simpl in E. pose proof (emit_store _ _ _ _ _ _ _ E) as ->.
  destruct (accumulate_frame (length h0) _ _ _ _ _ _ _ Eacc)
    as (Htake & Hrd & Hsd).
  - intros k l H. by rewrite lookup_empty in H.
  - intros k l H. by rewrite lookup_empty in H.
  - done.
  - split; [by rewrite Htake, firstn_all |].
    intros ip lr ls Hin.
    destruct (emit_elem _ _ _ _ _ _ _ E ip lr ls Hin) as [Hnil | [Hr Hs]];
      [by apply elem_of_nil in Hnil |].
    split; [by eapply Hrd | by eapply Hsd].
Qed.

(** ** [extract_regions_and_services] *)

Lemma extract_regions_and_services_snoc payload p :
  extract_regions_and_services (payload ++ [p])
  = <[region p :=
        default ∅ (extract_regions_and_services payload !! region p)
        ∪ {[service p]}]> (extract_regions_and_services payload).
Proof. unfold extract_regions_and_services. by rewrite foldl_app. Qed.

Lemma extract_regions_and_services_lookup payload r :
  extract_regions_and_services payload !! r
  = match filter (λ p, region p = r) payload with
    | [] => None
    | recs => Some (list_to_set (service <$> recs))
    end.
Proof.
  induction payload as [| p payload IH] using rev_ind; [done |].
  rewrite extract_regions_and_services_snoc, filter_app.
  destruct (decide (region p = r)) as [<- | Hne].
  - rewrite lookup_insert_eq, filter_cons_True, filter_nil by done.
    rewrite IH.
    destruct (filter (λ q, region q = region p) payload) as [| q recs]; simpl.
    + f_equal; set_solver.
    + f_equal. rewrite fmap_app, list_to_set_app_L. simpl. set_solver.
  - rewrite lookup_insert_ne, filter_cons_False, filter_nil, app_nil_r by done.
    exact IH.
Qed.

(** X11: the index built by [extract_regions_and_services] has a key for
    exactly the regions that occur in the feed, and the set of a region
    holds exactly the services that the feed lists in an entry of that
    region; no set is empty. *)
Theorem extract_regions_and_services_spec (payload : list prefix) (r : string) :
  (is_Some (extract_regions_and_services payload !! r)
   ↔ ∃ p, p ∈ payload ∧ region p = r)
  ∧ ∀ S, extract_regions_and_services payload !! r = Some S →
         S ≠ ∅
         ∧ ∀ s, s ∈ S ↔ ∃ p, p ∈ payload ∧ region p = r ∧ service p = s.
Proof.
  rewrite extract_regions_and_services_lookup.
  destruct (filter (λ p, region p = r) payload) as [| q recs] eqn:Hrecs.
  - split; [| done]. split; [by intros [] |].
    intros (p & Hp & Hr).
    assert (p ∈ filter (λ p, region p = r) payload) as Hin
      by by apply list_elem_of_filter.
    rewrite Hrecs in Hin. by apply elem_of_nil in Hin.
  - assert (∀ p, p ∈ q :: recs ↔ region p = r ∧ p ∈ payload) as Hin.
    { intros p. by rewrite <- Hrecs, list_elem_of_filter. }
    split.
    + split; [| by eauto]. intros _. exists q.
      destruct (Hin q) as [[? ?] _]; [by left | done].
    + intros S [= <-]. split; [set_solver |].
      change ({[service q]} ∪ list_to_set (list_fmap prefix string service recs))
        with (list_to_set (C := gset string) (service <$> q :: recs)).
      intros s. rewrite elem_of_list_to_set, list_elem_of_fmap. split.
      * intros (p & -> & [? ?]%Hin). by exists p.
      * intros (p & Hp & Hr & <-). exists p. split; [done |]. by apply Hin.
Qed.

(** ** [create_scopes]: policy, order and parents *)

Module CreateScopesMore.

(** Inside this module [valid_region] and [valid_service] are the one-name
    filters of [create_scopes]; the list filters of [annotations] are
    written [list_valid_region] and [list_valid_service]. *)
Local Abbreviation list_valid_region := valid_region (only parsing).
Local Abbreviation list_valid_service := valid_service (only parsing).
Import CreateScopes CreateScopesFacts.

Lemma return_if_any_eq_in v xs y :
  return_if_any_eq v xs y = return_if_any_in v xs [y].
Proof.
  induction xs as [| x xs IH]; [done |]. simpl. rewrite IH. unfold py_in.
  by rewrite (bool_decide_ext (x = y) (x ∈ [y]))
    by by rewrite list_elem_of_singleton.
Qed.

Lemma one_name_filters_as_list pol name :
  valid_region pol name = list_valid_region pol [name]
  ∧ valid_service pol name = list_valid_service pol [name].
Proof.
  unfold valid_region, valid_service, list_valid_region, list_valid_service.
  by rewrite !return_if_any_eq_in.
Qed.

(** X12: the one-name filters of [create_scopes] decide as the list filters
    of [annotations] do on a list of that one name: they return the same
    value, for every policy and every name. *)
Theorem scalar_filters_agree_with_list_filters (pol : policy) (name : string) :
  valid_region pol name = list_valid_region pol [name]
  ∧ valid_service pol name = list_valid_service pol [name].
Proof. apply one_name_filters_as_list. Qed.

Lemma valid_region_one pol name :
  truthy (CreateScopes.valid_region pol name) = true
  ↔ regions pol = [] ∨ name ∈ regions pol.
Proof.
  destruct (one_name_filters_as_list pol name) as [-> _].
  rewrite truthy_PyTrue, valid_region_PyTrue. split.
  - intros [? | (x & ->%list_elem_of_singleton & ?)]; auto.
  - intros [? | ?]; [by left |]. right. exists name.
    split; [by apply list_elem_of_singleton | done].
Qed.

Lemma valid_service_one pol name :
  truthy (CreateScopes.valid_service pol name) = true
  ↔ (name ∉ excludes pol) ∧ (includes pol = [] ∨ name ∈ includes pol).
Proof.
  destruct (one_name_filters_as_list pol name) as [_ ->].
  rewrite truthy_PyTrue, valid_service_PyTrue. split.
  - intros [Hno Hinc]. split.
    + intros Hex. apply Hno. exists name.
      split; [by apply list_elem_of_singleton | done].
    + destruct Hinc as [? | (x & ->%list_elem_of_singleton & ?)]; auto.
  - intros [Hno Hinc]. split.
    + by intros (x & ->%list_elem_of_singleton & ?).
    + destruct Hinc as [? | ?]; [by left |]. right. exists name.
      split; [by apply list_elem_of_singleton | done].
Qed.

(** X13: whatever the platform answers, [create_scopes] posts a region
    scope only for a region of the index that the region option allows
    (every region when the option is empty), and a component scope only for
    a service that is not excluded, is included when the include option is
    not empty, and is listed by the index in an allowed region; an excluded
    service is never requested, even if it is also included. *)
Theorem create_scopes_requests_respect_policy
  (api : list request → request → response) (pol : policy) (root : string)
  (items : list (string * list string)) (req : request) :
  req ∈ posted (final_state (create_scopes api pol root items [])) →
  (is_region_request req →
     (regions pol = [] ∨ short_name req ∈ regions pol)
     ∧ ∃ services, (short_name req, services) ∈ items)
  ∧ (is_component_request req →
       (short_name req ∉ excludes pol)
       ∧ (includes pol = [] ∨ short_name req ∈ includes pol)
       ∧ ∃ region services,
           (region, services) ∈ items
           ∧ (regions pol = [] ∨ region ∈ regions pol)
           ∧ short_name req ∈ services).
Proof.
  intros Hreq.
  pose proof (create_scopes_allowed api pol root items) as Hall.
  rewrite Forall_forall in Hall. apply Hall in Hreq.
  unfold is_region_request, is_component_request.
  destruct Hreq as [(Hf & _) | [(Hf & Hregion & Hin) | (Hf & Hsvc & Hin)]];
    rewrite Hf; (split; [intros ? | intros ?]); try done.
  - split; [by apply valid_region_one | done].
  - apply valid_service_one in Hsvc as [Hno Hinc].
    split; [done |]. split; [done |].
    destruct Hin as (region & services & Hitem & Hregion & Hname).
    exists region, services. split; [done |].
    split; [by apply valid_region_one | done].
Qed.

Lemma create_scopes_requests_respect_policy_witness :
  let req := mkRequest "EC2" "eq" "user_SaaS Component" "EC2" "id-us-east-1" in
  req ∈ posted (final_state
                  (create_scopes api_ok (mkPolicy ["EC2"] ["S3"] []) "Default"
                     [("us-east-1", ["S3"; "EC2"])] []))
  ∧ (is_component_request req → short_name req ∉ ["S3"]).
Proof.
  assert (mkRequest "EC2" "eq" "user_SaaS Component" "EC2" "id-us-east-1"
          ∈ posted (final_state
                      (create_scopes api_ok (mkPolicy ["EC2"] ["S3"] []) "Default"
                         [("us-east-1", ["S3"; "EC2"])] []))) as Hin.
  { vm_compute. do 2 right. left. }
  split; [exact Hin |].
  intros Hc.
  exact (proj1 (proj2 (create_scopes_requests_respect_policy api_ok
                         (mkPolicy ["EC2"] ["S3"] []) "Default"
                         [("us-east-1", ["S3"; "EC2"])] _ Hin) Hc)).
Defined.

Lemma services_events_elem pol rsid services ev :
  ev ∈ services_events pol rsid services →
  (∃ line, ev = Print line)
  ∨ ∃ s, s ∈ services ∧ truthy (valid_service pol s) = true
         ∧ ev = Post "/app_scopes"
                  (mkRequest s "eq" "user_SaaS Component" s rsid).
Proof.
  unfold services_events. intros (s & Hev & Hs)%list_elem_of_bind.
  destruct (truthy (valid_service pol s)) eqn:Hvalid;
    [| by apply elem_of_nil in Hev].
  apply elem_of_cons in Hev as [-> | Hev]; [left; eauto |].
  apply list_elem_of_singleton in Hev as ->. right. by exists s.
Qed.

Lemma services_events_lower_tier pol ssid rsid services :
  Forall (lower_tier_event ssid) (services_events pol rsid services).
Proof.
  apply Forall_forall. intros ev [[line ->] | (s & _ & _ & ->)]%services_events_elem;
    [done |].
  simpl. repeat split. by right.
Qed.

Section MoreRuns.

Variable api : list request → request → response.

(** The outer loop only adds events, all of the lower tiers. *)
Lemma regions_loop_extends pol ssid items : ∀ tr,
  ∃ ext, final_state (regions_loop api pol ssid items tr) = tr ++ ext
         ∧ Forall (lower_tier_event ssid) ext.
Proof.
  induction items as [| [region services] rest IH]; intros tr.
  - exists []. by rewrite app_nil_r.
  - rewrite regions_loop_cons.
    destruct (truthy (valid_region pol region)); [| apply IH]. cbn zeta.
    assert (Forall (lower_tier_event ssid)
              [Print region;
               Post "/app_scopes"
                 (mkRequest region "eq" "user_SaaS Region" region ssid)])
      as Hnew.
    { constructor; [done |]. constructor; [| done].
      simpl. repeat split. by left. }
    destruct (id_of _) as [e | rsid].
    + by eexists.
    + destruct (IH ((tr ++ [Print region;
                            Post "/app_scopes"
                              (mkRequest region "eq" "user_SaaS Region"
                                 region ssid)])
                      ++ services_events pol rsid services))
        as (ext & -> & Hext).
      eexists. rewrite <- !app_assoc. split; [done |].
      repeat (apply Forall_app; split); try done.
      apply services_events_lower_tier.
Qed.

(** X14: every run of [create_scopes] starts by posting the umbrella scope
    "AWS" under the root scope it was given, before it prints anything; all
    later requests are region or component scopes posted to [/app_scopes]
    with an equality query on their own name. *)
Theorem create_scopes_starts_with_umbrella_scope
  (pol : policy) (root : string) (items : list (string * list string)) :
  ∃ rest,
    final_state (create_scopes api pol root items [])
    = Post "/app_scopes"
        (mkRequest "AWS" "eq" "user_SaaS Provider" "AWS" root) :: rest
    ∧ Forall (λ ev, match ev with
                    | Print _ => True
                    | Post path req =>
                        path = "/app_scopes"
                        ∧ query_type req = "eq"
                        ∧ query_value req = short_name req
                        ∧ (is_region_request req ∨ is_component_request req)
                    end) rest.
Proof.
  rewrite create_scopes_run. cbn zeta.
  destruct (id_of _) as [e | ssid]; [by exists [] |].
  destruct (regions_loop_extends pol ssid items
              [Post "/app_scopes"
                 (mkRequest "AWS" "eq" "user_SaaS Provider" "AWS" root)])
    as (ext & -> & Hext).
  exists ext. split; [done |].
  eapply Forall_impl; [exact Hext |].
  intros [line | path req]; [done |].
  intros (? & ? & ? & [[? _] | ?]); repeat split; auto.
Qed.

(** When the answer to the umbrella request yields no id, the run
    raises at once: that request is the only event, nothing is printed and
    no region or component scope is requested, whatever the index and the
    policy. *)
Theorem create_scopes_stops_without_umbrella_id
  (pol : policy) (root : string) (items : list (string * list string))
  (e : exn) :
  id_of (api [] (mkRequest "AWS" "eq" "user_SaaS Provider" "AWS" root)) = inl e →
  create_scopes api pol root items []
  = Raised e [Post "/app_scopes"
                (mkRequest "AWS" "eq" "user_SaaS Provider" "AWS" root)].
Proof. intros Hid. rewrite create_scopes_run. cbn zeta. by rewrite Hid. Qed.

Lemma services_events_cons pol rsid s rest :
  services_events pol rsid (s :: rest)
  = (if truthy (valid_service pol s) then
       [Print (" " +:+ s);
        Post "/app_scopes" (mkRequest s "eq" "user_SaaS Component" s rsid)]
     else [])
    ++ services_events pol rsid rest.
Proof. reflexivity. Qed.

Lemma posted_services_events_length pol rsid services :
  length (posted (services_events pol rsid services)) ≤ length services.
Proof.
  induction services as [| s rest IH]; [done |].
  rewrite services_events_cons, posted_app, length_app.
  destruct (truthy (valid_service pol s)); simpl; lia.
Qed.

Lemma regions_loop_requests_bound pol ssid items : ∀ tr,
  length (posted (final_state (regions_loop api pol ssid items tr)))
  ≤ length (posted tr) + names_count items.
Proof.
  induction items as [| [region services] rest IH]; intros tr.
  - simpl. unfold names_count. simpl. lia.
  - rewrite regions_loop_cons. unfold names_count. rewrite fmap_cons. simpl.
    fold (names_count rest).
    destruct (truthy (valid_region pol region)).
    2: { pose proof (IH tr). lia. }
    cbn zeta. destruct (id_of _) as [e | rsid].
    + simpl. rewrite posted_app, length_app. simpl. lia.
    + etrans; [apply IH |]. rewrite !posted_app, !length_app. simpl.
      pose proof (posted_services_events_length pol rsid services). lia.
Qed.

(** X15: a run of [create_scopes] makes at most one request per region of
    the index and one per service listed under a region, besides the
    umbrella request. *)
Theorem create_scopes_requests_bound
  (pol : policy) (root : string) (items : list (string * list string)) :
  length (posted (final_state (create_scopes api pol root items [])))
  ≤ 1 + names_count items.
Proof.
  rewrite create_scopes_run. cbn zeta.
  destruct (id_of _) as [e | ssid]; [simpl; lia |].
  etrans; [apply regions_loop_requests_bound | done].
Qed.

End MoreRuns.

Lemma create_scopes_stops_without_umbrella_id_witness :
  id_of (api_not_json [] (mkRequest "AWS" "eq" "user_SaaS Provider" "AWS" "Default"))
  = inl ValueError
  ∧ create_scopes api_not_json no_policy "Default"
      [("us-east-1", ["EC2"]); ("eu-west-1", ["S3"])] []
    = Raised ValueError
        [Post "/app_scopes"
           (mkRequest "AWS" "eq" "user_SaaS Provider" "AWS" "Default")].
Proof.
  split; [reflexivity |].
  apply (create_scopes_stops_without_umbrella_id api_not_json no_policy
           "Default" [("us-east-1", ["EC2"]); ("eu-west-1", ["S3"])] ValueError).
  reflexivity.
Defined.

Lemma services_events_complete pol rsid services s :
  s ∈ services → truthy (valid_service pol s) = true →
  Post "/app_scopes" (mkRequest s "eq" "user_SaaS Component" s rsid)
  ∈ services_events pol rsid services.
Proof.
  intros Hs Hvalid. unfold services_events. apply list_elem_of_bind.
  exists s. split; [| done]. rewrite Hvalid. right. by left.
Qed.

Section AnsweringPlatform.

Variable api : list request → request → response.
Hypothesis answers : ∀ hist req,
  ¬ is_component_request req → ∃ id, id_of (api hist req) = inr id.

Lemma regions_loop_complete pol ssid items : ∀ tr,
  ∃ ext,
    regions_loop api pol ssid items tr = Ok tt (tr ++ ext)
    ∧ ∀ region services,
        (region, services) ∈ items →
        truthy (valid_region pol region) = true →
        Post "/app_scopes" (mkRequest region "eq" "user_SaaS Region" region ssid)
        ∈ ext
        ∧ ∀ service,
            service ∈ services →
            truthy (valid_service pol service) = true →
            ∃ rsid,
              Post "/app_scopes"
                (mkRequest service "eq" "user_SaaS Component" service rsid)
              ∈ ext.
Proof.
  induction items as [| [region0 services0] rest IH]; intros tr.
  { exists []. rewrite app_nil_r. split; [done |].
    by intros region services ?%elem_of_nil. }
  rewrite regions_loop_cons.
  destruct (truthy (valid_region pol region0)) eqn:Hvalid0.
  - cbn zeta.
    destruct (answers (posted (tr ++ [Print region0]))
                (mkRequest region0 "eq" "user_SaaS Region" region0 ssid))
      as [rsid Hrsid]; [done |].
    rewrite Hrsid.
    destruct (IH ((tr ++ [Print region0;
                          Post "/app_scopes"
                            (mkRequest region0 "eq" "user_SaaS Region"
                               region0 ssid)])
                    ++ services_events pol rsid services0))
      as (ext & -> & Hext).
    eexists. rewrite <- !app_assoc. split; [done |].
    intros region services [[= -> ->] | Hin]%elem_of_cons Hvalid.
    + split; [right; by left |].
      intros service Hservice Hvs. exists rsid.
      do 2 right. apply elem_of_app. left.
      by apply services_events_complete.
    + destruct (Hext region services Hin Hvalid) as [Hregion Hservices].
      split.
      * do 2 right. apply elem_of_app. by right.
      * intros service Hservice Hvs.
        destruct (Hservices service Hservice Hvs) as [rsid' Hin'].
        exists rsid'. do 2 right. apply elem_of_app. by right.
  - destruct (IH tr) as (ext & -> & Hext). exists ext. split; [done |].
    intros region services [[= -> ->] | Hin]%elem_of_cons Hvalid;
      [congruence | by apply Hext].
Qed.



End AnsweringPlatform.





Section Parents.

Variable api : list request → request → response.
Variable items : list (string * list string).

Lemma component_parent_at_extend tr ext j :
  j < length tr →
  component_parent_at api items tr j →
  component_parent_at api items (tr ++ ext) j.
Proof.
  intros Hj Hat path req Hlook Hcomp.
  rewrite lookup_app_l in Hlook by done.
  destruct (Hat path req Hlook Hcomp)
    as (i & preq & services & Hi & Hpre & Hregion & Hid & Hin & Hname & Hmid).
  exists i, preq, services. split; [done |].
  split; [by rewrite lookup_app_l by lia |]. split; [done |].
  split; [by rewrite take_app_le by lia |]. split; [done |]. split; [done |].
  intros m path' req' Hm Hlook'. rewrite lookup_app_l in Hlook' by lia.
  by eapply Hmid.
Qed.

(** A region request and the requests of its services, added to a trace. *)
Lemma component_parent_at_region pol ssid region services rsid tr :
  (region, services) ∈ items →
  id_of (api (posted (tr ++ [Print region]))
           (mkRequest region "eq" "user_SaaS Region" region ssid)) = inr rsid →
  (∀ j, component_parent_at api items tr j) →
  ∀ j, component_parent_at api items
         ((tr ++ [Print region;
                  Post "/app_scopes"
                    (mkRequest region "eq" "user_SaaS Region" region ssid)])
            ++ services_events pol rsid services) j.
Proof.
  intros Hitem Hid Htr j.
  rewrite <- app_assoc.
  destruct (decide (j < length tr)) as [Hlt | Hge].
  { by apply component_parent_at_extend. }
  intros path req Hlook Hcomp.
  rewrite lookup_app_r in Hlook by lia.
  destruct (j - length tr) as [| [| n]] eqn:Hn; simpl in Hlook; [done | |].
  { injection Hlook as <- <-. done. }
  apply list_elem_of_lookup_2, services_events_elem in Hlook
    as [[line ?] | (s & Hs & _ & [= -> ->])]; [done |].
  exists (S (length tr)),
    (mkRequest region "eq" "user_SaaS Region" region ssid), services.
  split; [lia |]. split.
  { rewrite lookup_app_r by lia.
    by replace (S (length tr) - length tr) with 1 by lia. }
  split; [done |]. split.
  { replace (S (length tr)) with (length tr + 1) by lia.
    by rewrite take_app_add. }
  split; [done |]. split; [done |].
  intros m path' req' Hm Hlook'.
  rewrite lookup_app_r in Hlook' by lia.
  destruct (m - length tr) as [| [| k]] eqn:Hk; [lia | lia |].
  simpl in Hlook'.
  by apply list_elem_of_lookup_2, services_events_elem in Hlook'
    as [[line ?] | (s' & _ & _ & [= _ ->])].
Qed.

Lemma regions_loop_component_parents pol ssid rest : ∀ tr,
  rest ⊆ items →
  (∀ j, component_parent_at api items tr j) →
  ∀ j, component_parent_at api items
         (final_state (regions_loop api pol ssid rest tr)) j.
Proof.
  induction rest as [| [region services] rest IH]; intros tr Hsub Htr; [done |].
  assert (rest ⊆ items) as Hsub'.
  { intros x Hx. apply Hsub. by right. }
  assert ((region, services) ∈ items) as Hitem.
  { apply Hsub. by left. }
  rewrite regions_loop_cons.
  destruct (truthy (valid_region pol region)); [| by apply IH].
  cbn zeta. destruct (id_of _) as [e | rsid] eqn:Hid.
  - simpl. intros j.
    destruct (decide (j < length tr)) as [Hlt | Hge].
    { by apply component_parent_at_extend. }
    intros path req Hlook Hcomp.
    rewrite lookup_app_r in Hlook by lia.
    destruct (j - length tr) as [| [| n]]; simpl in Hlook; [done | | done].
    by injection Hlook as <- <-.
  - apply IH; [done |]. by apply component_parent_at_region.
Qed.

(** X17: every scope hangs under the scope of its own parent.  A region
    request names as parent the id with which the platform answered the
    umbrella request, the first event of the run.  A component request
    names as parent the id with which the platform answered the nearest
    region request before it, and the index lists its service under that
    region. *)
Theorem create_scopes_parents (pol : policy) (root : string)
  (j : nat) (path : string) (req : request) :
  let aws := mkRequest "AWS" "eq" "user_SaaS Provider" "AWS" root in
  let tr := final_state (create_scopes api pol root items []) in
  tr !! j = Some (Post path req) →
  (is_region_request req →
     tr !! 0 = Some (Post "/app_scopes" aws)
     ∧ id_of (api [] aws) = inr (parent_app_scope_id req))
  ∧ (is_component_request req →
       ∃ i preq services,
         i < j
         ∧ tr !! i = Some (Post "/app_scopes" preq)
         ∧ is_region_request preq
         ∧ id_of (api (posted (take i tr)) preq) = inr (parent_app_scope_id req)
         ∧ (short_name preq, services) ∈ items
         ∧ short_name req ∈ services
         ∧ ∀ m path' req',
             i < m < j → tr !! m = Some (Post path' req') →
             is_component_request req').
Proof.
  intros aws tr Hlook. split.
  - intros Hregion. subst tr. rewrite create_scopes_run in *. cbn zeta in *.
    fold aws in Hlook |- *.
    destruct (id_of (api [] aws)) as [e | ssid] eqn:Hssid.
    + simpl in *. destruct j; [| done]. by injection Hlook as <- <-.
    + destruct (regions_loop_extends api pol ssid items [Post "/app_scopes" aws])
        as (ext & Hext & Hlower).
      rewrite Hext in *. split; [done |].
      destruct j as [| n]; [by injection Hlook as <- <- |].
      simpl in Hlook. apply list_elem_of_lookup_2 in Hlook.
      rewrite Forall_forall in Hlower. apply Hlower in Hlook.
      destruct Hlook as (_ & _ & _ & [[_ ->] | Hcomp]); [done |].
      unfold is_region_request, is_component_request in *. congruence.
  - intros Hcomp.
    assert (∀ j, component_parent_at api items tr j) as Hall;
      [| by apply (Hall j path req)].
    subst tr. rewrite create_scopes_run. cbn zeta. fold aws.
    assert (∀ j, component_parent_at api items [Post "/app_scopes" aws] j)
      as Hfirst.
    { intros [| n] path' req' Hlook'; [| done].
      by injection Hlook' as <- <-. }
    destruct (id_of (api [] aws)) as [e | ssid]; [done |].
    by apply regions_loop_component_parents.
Qed.

End Parents.

Lemma create_scopes_parents_witness :
  let tr := final_state
              (create_scopes api_ok no_policy "Default"
                 [("us-east-1", ["EC2"])] []) in
  let req := mkRequest "EC2" "eq" "user_SaaS Component" "EC2" "id-us-east-1" in
  tr !! 4 = Some (Post "/app_scopes" req)
  ∧ (is_component_request req →
       ∃ i preq services,
         i < 4
         ∧ tr !! i = Some (Post "/app_scopes" preq)
         ∧ is_region_request preq
         ∧ id_of (api_ok (posted (take i tr)) preq)
           = inr (parent_app_scope_id req)
         ∧ (short_name preq, services) ∈ [("us-east-1", ["EC2"])]
         ∧ short_name req ∈ services
         ∧ ∀ m path' req',
             i < m < 4 → tr !! m = Some (Post path' req') →
             is_component_request req').
Proof.
  split; [reflexivity |].
  apply (create_scopes_parents api_ok [("us-east-1", ["EC2"])] no_policy
           "Default" 4 "/app_scopes").
  reflexivity.
Defined.

Lemma iterates_elem index items region services :
  iterates index items → (region, services) ∈ items →
  ∃ S, index !! region = Some S ∧ ∀ s, s ∈ services ↔ s ∈ S.
Proof.
  intros (walk & Hwalk & Hitems) [i Hi]%list_elem_of_lookup.
  destruct (Forall2_lookup_r _ _ _ _ _ Hitems Hi) as ([k S] & Hkv & Hk & Hv).
  simpl in Hk, Hv. subst k. exists S. split.
  - apply elem_of_map_to_list. rewrite <- Hwalk.
    by eapply list_elem_of_lookup_2.
  - intros s. rewrite Hv. apply elem_of_elements.
Qed.

Lemma extract_regions_and_services_elem payload r S s :
  extract_regions_and_services payload !! r = Some S → s ∈ S →
  ∃ p, p ∈ payload ∧ region p = r ∧ service p = s.
Proof.
  rewrite extract_regions_and_services_lookup.
  destruct (filter (λ p, region p = r) payload) as [| q recs] eqn:Hrecs; [done |].
  intros [= <-].
  change ({[service q]} ∪ list_to_set (list_fmap prefix string service recs))
    with (list_to_set (C := gset string) (service <$> q :: recs)).
  rewrite elem_of_list_to_set, list_elem_of_fmap.
  intros (p & -> & Hp). rewrite <- Hrecs in Hp.
  apply list_elem_of_filter in Hp as [? ?]. by exists p.
Qed.

Lemma extract_regions_and_services_key payload r S :
  extract_regions_and_services payload !! r = Some S →
  ∃ p, p ∈ payload ∧ region p = r.
Proof.
  rewrite extract_regions_and_services_lookup.
  destruct (filter (λ p, region p = r) payload) as [| q recs] eqn:Hrecs; [done |].
  intros _. exists q.
  assert (q ∈ filter (λ p, region p = r) payload) as Hq
    by (rewrite Hrecs; by left).
  by apply list_elem_of_filter in Hq as [? ?].
Qed.

(** X18: from the feed to the requests: when [create_scopes] walks the
    index that [extract_regions_and_services] built from a feed, every
    region scope it requests is a region of some entry of the feed, and
    every component scope it requests is the service of an entry of the
    feed whose region the region option allows. *)
Theorem create_scopes_requests_come_from_feed
  (api : list request → request → response) (pol : policy) (root : string)
  (payload : list prefix) (items : list (string * list string))
  (req : request) :
  iterates (extract_regions_and_services payload) items →
  req ∈ posted (final_state (create_scopes api pol root items [])) →
  (is_region_request req → ∃ p, p ∈ payload ∧ region p = short_name req)
  ∧ (is_component_request req →
       ∃ p, p ∈ payload ∧ service p = short_name req
            ∧ (regions pol = [] ∨ region p ∈ regions pol)).
Proof.
  intros Hiter Hreq.
  pose proof (create_scopes_allowed api pol root items) as Hall.
  rewrite Forall_forall in Hall. apply Hall in Hreq.
  unfold is_region_request, is_component_request.
  destruct Hreq as [(Hf & _) | [(Hf & _ & Hin) | (Hf & _ & Hin)]];
    rewrite Hf; (split; [intros ? | intros ?]); try done.
  - destruct Hin as [services Hitem].
    destruct (iterates_elem _ _ _ _ Hiter Hitem) as (S & HS & _).
    by eapply extract_regions_and_services_key.
  - destruct Hin as (region & services & Hitem & Hregion & Hname).
    destruct (iterates_elem _ _ _ _ Hiter Hitem) as (S & HS & Hsame).
    apply Hsame in Hname.
    destruct (extract_regions_and_services_elem _ _ _ _ HS Hname)
      as (p & Hp & Hr & Hs).
    exists p. split; [done |]. split; [done |].
    rewrite Hr. by apply valid_region_one.
Qed.

Lemma iterates_one_entry r s :
  iterates (extract_regions_and_services [mkPrefix "3.5.0.0/16" r s])
           [(r, [s])].
Proof.
  exists [(r, {[s]})]. split.
  - unfold extract_regions_and_services. simpl.
    rewrite lookup_empty. simpl. rewrite insert_empty, map_to_list_singleton.
    by rewrite (left_id_L ∅ (∪)).
  - constructor; [| constructor]. split; [reflexivity |]. simpl.
    rewrite elements_singleton. reflexivity.
Qed.

Lemma create_scopes_requests_come_from_feed_witness :
  let payload := [mkPrefix "3.5.0.0/16" "us-east-1" "S3"] in
  let req := mkRequest "S3" "eq" "user_SaaS Component" "S3" "id-us-east-1" in
  iterates (extract_regions_and_services payload) [("us-east-1", ["S3"])]
  ∧ req ∈ posted (final_state
                    (create_scopes api_ok no_policy "Default"
                       [("us-east-1", ["S3"])] []))
  ∧ (is_component_request req →
       ∃ p, p ∈ payload ∧ service p = short_name req
            ∧ (regions no_policy = [] ∨ region p ∈ regions no_policy)).
Proof.
  assert (mkRequest "S3" "eq" "user_SaaS Component" "S3" "id-us-east-1"
          ∈ posted (final_state
                      (create_scopes api_ok no_policy "Default"
                         [("us-east-1", ["S3"])] []))) as Hin.
  { vm_compute. do 2 right. left. }
  split; [apply iterates_one_entry |]. split; [exact Hin |].
  exact (proj2 (create_scopes_requests_come_from_feed api_ok no_policy
                  "Default" [mkPrefix "3.5.0.0/16" "us-east-1" "S3"]
                  [("us-east-1", ["S3"])] _
                  (iterates_one_entry "us-east-1" "S3") Hin)).
Defined.

End CreateScopesMore.

(** * The scope tree: allowed names and failing calls *)

Module CreateScopesOutcomes.
Import CreateScopes CreateScopesFacts CreateScopesMore.








End CreateScopesOutcomes.

(** ** The options and the upload *)

Lemma command_policy_app include exclude region includes excludes regions :
  Cli.command_policy (Cli.app include exclude region) includes excludes regions
  = mkPolicy (Cli.or_empty include) (Cli.or_empty exclude) (Cli.or_empty region).
Proof.
  unfold Cli.command_policy, Cli.dict_get, Cli.app.
  rewrite (lookup_insert_ne _ "regions" "includes") by done.
  rewrite (lookup_insert_ne _ "excludes" "includes") by done.
  rewrite (lookup_insert_ne _ "regions" "excludes") by done.
  by rewrite !lookup_insert_eq.
Qed.

(** X19: a command filters by the options given to [app], with an absent
    or empty option read as no filter: the keyword arguments of the command
    never come into play, nor does the [regions] default that the command
    passes when it reads "excludes". *)
Theorem command_policy_is_app_options
  (include exclude region includes excludes regions : names) :
  Cli.command_policy (Cli.app include exclude region) includes excludes regions
  = mkPolicy (Cli.or_empty include) (Cli.or_empty exclude) (Cli.or_empty region)
  ∧ Cli.command_policy (Cli.app None None None) includes excludes regions
    = no_policy
  ∧ Cli.command_policy (Cli.app (Some []) (Some []) (Some []))
      includes excludes regions
    = no_policy.
Proof. by rewrite !command_policy_app. Qed.

(** X20: on a feed whose entries are complete, for all options and every
    store, the command [annotations] reaches its upload: it logs the number
    of rows, uploads one file to [/assets/cmdb/upload/<vrf>] with operation
    "add", and then logs the outcome of that very upload: "Uploaded
    Annotations" as information when the answer is ok, and otherwise, as an
    error, "Failed to Upload Annotations: " with the text of the answer; a
    refused upload is not raised.  The file holds the header and then the
    rows that [annotations] builds under the options given to [app], at most
    one per entry of the feed, so a feed that leaves no row still uploads
    the header alone. *)
Theorem annotations_command_uploads_once
  (upload : list (list string) → string → list (string * string)
            → upload_response)
  (vrf : string) (include exclude region includes excludes regions : names)
  (payload : list prefix) (h0 : store) :
  ∃ rows h,
    let lines := csv_header :: (row_fields <$> rows) in
    let path := "/assets/cmdb/upload/" +:+ vrf in
    let options := [("X-Tetration-Oper", "add")] in
    let resp := upload lines path options in
    annotations
      (mkPolicy (Cli.or_empty include) (Cli.or_empty exclude)
         (Cli.or_empty region)) payload h0
    = Ok rows h
    ∧ annotations_command upload (Cli.app include exclude region) vrf
        includes excludes regions payload h0
      = Ok [LogInfo ("Writing Annotations (Total: "
                     +:+ pretty (length rows) +:+ ") ");
            Upload lines path options;
            if upload_ok resp then LogInfo "Uploaded Annotations"
            else LogError ("Failed to Upload Annotations: "
                           +:+ upload_text resp)] h
    ∧ length rows ≤ length payload.
Proof.
  destruct (annotations_spec
              (mkPolicy (Cli.or_empty include) (Cli.or_empty exclude)
                 (Cli.or_empty region)) payload h0)
    as (rows & h & E & Hrows).
  exists rows, h. cbn zeta. split; [done |]. split.
  - unfold annotations_command. rewrite command_policy_app.
    rewrite (bind_ok _ _ _ _ _ E). reflexivity.
  - destruct (rows_match_kept _ _ _ _ Hrows) as (kept & Hsub & Hall).
    rewrite <- (Forall2_length _ _ _ Hall). by apply sublist_length.
Qed.
